(** * degenbot: arbitrage cycle engine, V3 path decoding, Balancer adapter

    A shallow embedding of
      - [degenbot/arbitrage/uniswap_lp_cycle.py] (class [UniswapLpCycle]),
      - [degenbot/uniswap/v3_functions.py] ([decode_v3_path]),
      - [degenbot/balancer/pools.py] ([calculate_tokens_out_from_tokens_in]),
    with the properties of the written specification stated and proved over
    it.  Python integers are [Z]; exceptions are values of [PyException] carried
    by [result]; dictionaries are [gmap]s; objects are records. *)

From Stdlib Require Import ZArith QArith Qfield Lia Lqa.
From stdpp Require Import base gmap strings list fin_maps.

Local Open Scope Z_scope.

(** ** Python exceptions and fallible computations *)

Module Py.

(** The exception classes the embedded code raises or catches.  A constructor
    stands for the class and its subclasses. *)
Inductive PyException : Type :=
  | EVMRevertError
  | LiquidityPoolError (message : string)
  | ArbitrageError (message : string)
  | RateOfExchangeBelowMinimum (rate : Q)
  | DegenbotValueError (message : string)
  | ValueError (message : string)
  | KeyError
  | IndexError
  | ZeroDivisionError
  | AssertionError
  | NameError (name : string)
  | OtherException (name : string).

Inductive result (A : Type) : Type :=
  | Ok (a : A)
  | Raise (e : PyException).
Arguments Ok {A} a.
Arguments Raise {A} e.

#[global] Instance result_ret : MRet result := fun _ a => Ok a.
#[global] Instance result_bind : MBind result := fun _ _ f m =>
  match m with
  | Ok a => f a
  | Raise e => Raise e
  end.

Definition is_ok {A} (r : result A) : bool :=
  match r with Ok _ => true | Raise _ => false end.

(** [except (EVMRevertError, LiquidityPoolError)] *)
Definition is_EVMRevert_or_LiquidityPoolError (e : PyException) : bool :=
  match e with
  | EVMRevertError | LiquidityPoolError _ => true
  | _ => false
  end.

(** [min(...)] and [max(...)] of an iterable of integers: [ValueError] on an
    empty one. *)
Definition py_min (l : list Z) : result Z :=
  match l with
  | [] => Raise (ValueError "min() arg is an empty sequence")
  | x :: l' => Ok (fold_left Z.min l' x)
  end.

Definition py_max (l : list Z) : result Z :=
  match l with
  | [] => Raise (ValueError "max() arg is an empty sequence")
  | x :: l' => Ok (fold_left Z.max l' x)
  end.

(** [math.prod] *)
Definition math_prod (l : list Z) : Z := fold_left Z.mul l 1.

(** [zip(a, b, strict=True)]: the pairs, and whether the lengths differ (in
    which case the iteration ends in a [ValueError] once the pairs are
    consumed). *)
Fixpoint zip_strict {A B} (a : list A) (b : list B) : list (A * B) * bool :=
  match a, b with
  | [], [] => ([], false)
  | x :: a', y :: b' => let '(l, bad) := zip_strict a' b' in ((x, y) :: l, bad)
  | _, _ => ([], true)
  end.

Definition zip_strict_error : PyException :=
  ValueError "zip() arguments have different lengths".

(** An argument of type [Iterable]: a collection that yields its items anew at
    every iteration (a list, a tuple), or an iterator (a generator, the value
    of [iter(...)] or [map(...)]) that yields the items it has left, once. *)
Inductive Iterable (A : Type) : Type :=
  | Collection (items : list A)
  | Iterator (items : list A).
Arguments Collection {A} items.
Arguments Iterator {A} items.

(** One iteration run to its end: the items yielded, and the iterable as the
    iteration leaves it. *)
Definition iterate {A} (it : Iterable A) : list A * Iterable A :=
  match it with
  | Collection items => (items, Collection items)
  | Iterator items => (items, Iterator [])
  end.

End Py.
Export Py.

(** ** Data model of the cycle engine *)

(** [fractions.Fraction]: an exact rational with a positive denominator, read
    through [numerator] and [denominator]. *)
Definition numerator (f : Q) : Z := Qnum f.
Definition denominator (f : Q) : Z := Zpos (Qden f).

(** [Fraction(n, d)]: [ZeroDivisionError] on a zero denominator, otherwise the
    fraction in lowest terms with the sign carried by the numerator. *)
Definition Fraction (n d : Z) : result Q :=
  if d =? 0 then Raise ZeroDivisionError
  else if 0 <? d then Ok (Qred (n # Z.to_pos d))
  else Ok (Qred ((- n) # Z.to_pos (- d))).

(** [a < b] on fractions: [a.numerator * b.denominator < a.denominator *
    b.numerator]. *)
Definition Fraction_lt (a b : Q) : bool :=
  numerator a * denominator b <? denominator a * numerator b.

Record Erc20Token : Type := { token_address : string }.

#[global] Instance Erc20Token_eq_dec : EqDecision Erc20Token.
Proof. solve_decision. Defined.

Record UniswapV3LiquidityAtTick : Type :=
  { liquidity_net : Z; liquidity_gross : Z }.

#[global] Instance UniswapV3LiquidityAtTick_eq_dec :
  EqDecision UniswapV3LiquidityAtTick.
Proof. solve_decision. Defined.

(** The states carried by pools; [block] is [None] when the state has no block
    number.  [tick_data] is the dictionary from tick to liquidity. *)
Inductive PoolState : Type :=
  | AerodromeV2PoolState (block : option Z) (reserves_token0 reserves_token1 : Z)
  | UniswapV2PoolState (block : option Z) (reserves_token0 reserves_token1 : Z)
  | UniswapV3PoolState (block : option Z) (liquidity sqrt_price_x96 tick : Z)
      (tick_data : gmap Z UniswapV3LiquidityAtTick).

Definition block (s : PoolState) : option Z :=
  match s with
  | AerodromeV2PoolState b _ _ | UniswapV2PoolState b _ _ => b
  | UniswapV3PoolState b _ _ _ _ => b
  end.

(** Pool classes admitted by the alias [Pool].  The class statements are
    outside the translated sources; the code dispatches on three shapes only
    ([AerodromeV2Pool], [UniswapV2Pool], [UniswapV3Pool]), so an
    [AerodromeV3Pool] is an instance of [UniswapV3Pool], as a subclass. *)
Inductive PoolClass : Type :=
  | AerodromeV2Pool | AerodromeV3Pool | UniswapV2Pool | UniswapV3Pool.

Definition isinstance_V2 (c : PoolClass) : bool :=
  match c with AerodromeV2Pool | UniswapV2Pool => true | _ => false end.

Definition isinstance_UniswapV3Pool (c : PoolClass) : bool :=
  match c with AerodromeV3Pool | UniswapV3Pool => true | _ => false end.

(** A pool object: the attributes the cycle engine reads.  [fee_token0] and
    [fee_token1] are meaningful for the constant-product classes, [fee] and
    [sparse_liquidity_map] for the concentrated-liquidity ones. *)
Record Pool : Type := {
  pool_class : PoolClass;
  address : string;
  token0 : Erc20Token;
  token1 : Erc20Token;
  state : PoolState;
  fee_token0 : Q;
  fee_token1 : Q;
  fee : Z;
  sparse_liquidity_map : bool
}.

Record UniswapPoolSwapVector : Type := {
  token_in : Erc20Token;
  token_out : Erc20Token;
  zero_for_one : bool
}.

(** ** Names the module leaves unbound

    [uniswap_lp_cycle.py] uses two global names that it neither defines nor
    imports: [get_sqrt_ratio_at_tick] (in [_pool_is_viable]) and
    [PoolStateMessage] (in [notify]).  Evaluating an unbound name raises
    [NameError]. *)

Definition unbound_get_sqrt_ratio_at_tick : Z -> result Z :=
  λ _, Raise (NameError "get_sqrt_ratio_at_tick").

Definition unbound_PoolStateMessage : result unit :=
  Raise (NameError "PoolStateMessage").

(** ** [UniswapLpCycle._pool_is_viable] *)

Section Viability.

(** What the global name [get_sqrt_ratio_at_tick] stands for when
    [_pool_is_viable] calls it.  The module neither defines the name nor
    imports it (its import from [v3_libraries.tick_math] lists
    [MAX_SQRT_RATIO] and [MIN_SQRT_RATIO] only), so in the module as it stands
    the binding is [unbound_get_sqrt_ratio_at_tick] below and every call
    raises [NameError].  The binding is a parameter of the embedding, so that
    what is proved for every binding holds of the module as it stands and of
    the module with the function of [tick_math] (which may raise, on ticks
    out of range) under that name. *)
Variable get_sqrt_ratio_at_tick : Z -> result Z.

Definition tick_keys (tick_data : gmap Z UniswapV3LiquidityAtTick) : list Z :=
  (map_to_list tick_data).*1.

Definition _pool_is_viable
    (pool : Pool) (state : PoolState) (vector : UniswapPoolSwapVector)
  : result bool :=
  let unidentified :=
    Raise (DegenbotValueError "Could not identify pool and state.") in
  match state with
  | AerodromeV2PoolState _ reserves_token0 reserves_token1
  | UniswapV2PoolState _ reserves_token0 reserves_token1 =>
      if isinstance_V2 (pool_class pool) then
        if (reserves_token0 =? 0) || (reserves_token1 =? 0) then Ok false
        else Ok (if zero_for_one vector
                 then 1 <? reserves_token1 else 1 <? reserves_token0)
      else unidentified
  | UniswapV3PoolState _ _ sqrt_price_x96 _ tick_data =>
      if isinstance_UniswapV3Pool (pool_class pool) then
        if sparse_liquidity_map pool then Ok true
        else if bool_decide (tick_data = ∅) then Ok false
        else if sqrt_price_x96 =? 0 then
          if negb (bool_decide (tick_data = ∅)) then
            Raise (ValueError ("Found pool @ " +:+ address pool +:+
                               " with liquidity positions, but price=0!"))
          else Ok false
        else if zero_for_one vector then
          lowest ← py_min (tick_keys tick_data);
          ratio ← get_sqrt_ratio_at_tick lowest;
          Ok (ratio <? sqrt_price_x96)
        else
          highest ← py_max (tick_keys tick_data);
          ratio ← get_sqrt_ratio_at_tick highest;
          Ok (sqrt_price_x96 <? ratio)
      else unidentified
  end.

End Viability.

(** ** A state-and-exception monad for methods of an object

    A method of an object with attributes [S] is a function from the attributes
    before the call to its outcome and the attributes after it; an exception
    keeps the attribute writes made before it was raised. *)

Definition M (S A : Type) : Type := S -> result A * S.

#[global] Instance M_ret {S} : MRet (M S) := fun _ a s => (Ok a, s).
#[global] Instance M_bind {S} : MBind (M S) := fun _ _ f m s =>
  match m s with
  | (Ok a, s') => f a s'
  | (Raise e, s') => (Raise e, s')
  end.

Definition reads {S A} (f : S -> A) : M S A := fun s => (Ok (f s), s).
Definition modify {S} (f : S -> S) : M S unit := fun s => (Ok tt, f s).
Definition raise {S A} (e : PyException) : M S A := fun s => (Raise e, s).
Definition lift {S A} (r : result A) : M S A := fun s => (r, s).

(** A method of a component run on a larger state. *)
Definition zoom {S T A} (m : M S A) : M (S * T) A := fun st =>
  let '(r, s') := m st.1 in (r, (s', st.2)).

(** [for x in l: body(x)] *)
Fixpoint for_each {S A} (l : list A) (body : A -> M S unit) : M S unit :=
  match l with
  | [] => mret tt
  | x :: l' => body x ≫= λ _, for_each l' body
  end.

(** [try: m  except ArbitrageError: handler] *)
Definition is_ArbitrageError (e : PyException) : bool :=
  match e with
  | ArbitrageError _ | RateOfExchangeBelowMinimum _ => true
  | _ => false
  end.

(** ** The cycle object *)

Record UniswapLpCycle : Type := {
  swap_pools : list Pool;
  id : string;
  input_token : Erc20Token;
  max_input : Z;
  _swap_vectors : list UniswapPoolSwapVector;
  _pool_viability : gmap string bool
}.

Definition set_pool_viability (self : UniswapLpCycle) (k : string) (v : bool)
  : UniswapLpCycle :=
  {| swap_pools := swap_pools self; id := id self;
     input_token := input_token self; max_input := max_input self;
     _swap_vectors := _swap_vectors self;
     _pool_viability := <[k := v]> (_pool_viability self) |}.

(** Pools compare equal when their addresses are equal; [tuple.index] returns
    the first position holding an equal pool. *)
Fixpoint pools_index (l : list Pool) (pool : Pool) : result nat :=
  match l with
  | [] => Raise (ValueError "tuple.index(x): x not in tuple")
  | p :: l' =>
      if bool_decide (address p = address pool) then Ok O
      else i ← pools_index l' pool; Ok (S i)
  end.

Definition getitem {A} (l : list A) (i : nat) : result A :=
  match l !! i with
  | Some x => Ok x
  | None => Raise IndexError
  end.

Definition dict_getitem {A} (d : gmap string A) (k : string) : result A :=
  match d !! k with
  | Some x => Ok x
  | None => Raise KeyError
  end.

Section Cycle.

Variable get_sqrt_ratio_at_tick : Z -> result Z.

(** *** [__init__] *)

Definition next_swap_vector (current_token : Erc20Token) (pool : Pool)
  : result UniswapPoolSwapVector :=
  if bool_decide (current_token = token0 pool) then
    Ok {| token_in := token0 pool; token_out := token1 pool;
          zero_for_one := true |}
  else if bool_decide (current_token = token1 pool) then
    Ok {| token_in := token1 pool; token_out := token0 pool;
          zero_for_one := false |}
  else Raise (DegenbotValueError "Input token could not be identified!").

Fixpoint build_swap_vectors (current_token : Erc20Token) (pools : list Pool)
  : result (list UniswapPoolSwapVector) :=
  match pools with
  | [] => Ok []
  | pool :: pools' =>
      v ← next_swap_vector current_token pool;
      vs ← build_swap_vectors (token_out v) pools';
      Ok (v :: vs)
  end.

Fixpoint build_pool_viability (l : list (Pool * UniswapPoolSwapVector))
    (acc : gmap string bool) : result (gmap string bool) :=
  match l with
  | [] => Ok acc
  | (pool, swap_vector) :: l' =>
      v ← _pool_is_viable get_sqrt_ratio_at_tick pool (state pool) swap_vector;
      build_pool_viability l' (<[address pool := v]> acc)
  end.

(** The argument [swap_pools] is iterated three times before the cycle is
    complete: by the loop of the type check (which every [Pool] passes), by
    [tuple(swap_pools)], and by the [zip] of the viability dictionary.  (The
    fourth iteration subscribes the cycle to the pools still yielded; the
    subscribers of a pool are not part of the embedding.) *)
Definition __init__ (input_token : Erc20Token) (swap_pools : Iterable Pool)
    (id : string) (max_input : option Z) : result UniswapLpCycle :=
  let '(_, swap_pools) := iterate swap_pools in
  let '(self_swap_pools, swap_pools) := iterate swap_pools in
  max_input ← match max_input with
              | None => Ok (100 * 10 ^ 18)
              | Some m =>
                  if m <=? 0
                  then Raise (DegenbotValueError "Maximum input must be positive.")
                  else Ok m
              end;
  vectors ← build_swap_vectors input_token self_swap_pools;
  let '(zipped_pools, swap_pools) := iterate swap_pools in
  let '(pairs, bad) := zip_strict zipped_pools vectors in
  viability ← build_pool_viability pairs ∅;
  if bad then Raise zip_strict_error
  else Ok {| swap_pools := self_swap_pools; id := id;
             input_token := input_token; max_input := max_input;
             _swap_vectors := vectors; _pool_viability := viability |}.

(** *** [_pre_calculation_check] *)

(** The test of the first loop for one pool: the override, when there is one,
    is not viable, or the cached flag is [False]. *)
Definition pool_not_viable (state_overrides : gmap string PoolState)
    (pool : Pool) : M UniswapLpCycle bool :=
  overridden_bad ←
    match state_overrides !! address pool with
    | Some override =>
        vectors ← reads _swap_vectors;
        pools ← reads swap_pools;
        i ← lift (pools_index pools pool);
        vector ← lift (getitem vectors i);
        viable ← lift (_pool_is_viable get_sqrt_ratio_at_tick pool override vector);
        mret (negb viable)
    | None => mret false
    end;
  if overridden_bad : bool then mret true
  else
    viability ← reads _pool_viability;
    cached ← lift (dict_getitem viability (address pool));
    mret (negb cached).

Definition check_pools_viable (state_overrides : gmap string PoolState)
  : M UniswapLpCycle unit :=
  pools ← reads swap_pools;
  for_each pools (λ pool,
    bad ← pool_not_viable state_overrides pool;
    if bad : bool
    then raise (ArbitrageError ("Pool " +:+ address pool +:+ " is not viable"))
    else mret tt).

Definition Q192 : Z :=
  6277101735386680763835789423207666416102355444464034512896.

(** The numerator and the denominator one hop appends to
    [exchange_rate_numerators] and [exchange_rate_denominators]. *)
Definition exchange_rate_terms (pool : Pool) (pool_state : PoolState)
    (vector : UniswapPoolSwapVector) : result (Z * Z) :=
  let unidentified := Raise (DegenbotValueError "Could not identify pool.") in
  match pool_state with
  | AerodromeV2PoolState _ reserves_token0 reserves_token1
  | UniswapV2PoolState _ reserves_token0 reserves_token1 =>
      if isinstance_V2 (pool_class pool) then
        if zero_for_one vector then
          Ok (reserves_token1
                * (denominator (fee_token0 pool) - numerator (fee_token0 pool)),
              reserves_token0 * denominator (fee_token0 pool))
        else
          Ok (reserves_token0
                * (denominator (fee_token1 pool) - numerator (fee_token1 pool)),
              reserves_token1 * denominator (fee_token1 pool))
      else unidentified
  | UniswapV3PoolState _ _ sqrt_price_x96 _ _ =>
      if isinstance_UniswapV3Pool (pool_class pool) then
        if zero_for_one vector then
          Ok (sqrt_price_x96 * sqrt_price_x96 * (1000000 - fee pool),
              Q192 * 1000000)
        else
          Ok (Q192 * (1000000 - fee pool),
              sqrt_price_x96 * sqrt_price_x96 * 1000000)
      else unidentified
  end.

(** [state_overrides.get(pool.address, pool.state)] *)
Definition state_in_effect (state_overrides : gmap string PoolState)
    (pool : Pool) : PoolState :=
  default (state pool) (state_overrides !! address pool).

Fixpoint exchange_rate_loop (state_overrides : gmap string PoolState)
    (l : list (Pool * UniswapPoolSwapVector)) (numerators denominators : list Z)
  : result (list Z * list Z) :=
  match l with
  | [] => Ok (numerators, denominators)
  | (pool, vector) :: l' =>
      '(n, d) ← exchange_rate_terms pool (state_in_effect state_overrides pool)
                  vector;
      exchange_rate_loop state_overrides l' (numerators ++ [n])
        (denominators ++ [d])
  end.

Definition check_rate_of_exchange (min_rate_of_exchange : Q)
    (state_overrides : gmap string PoolState) : M UniswapLpCycle unit :=
  pools ← reads swap_pools;
  vectors ← reads _swap_vectors;
  let '(pairs, bad) := zip_strict pools vectors in
  '(numerators, denominators) ←
    lift (exchange_rate_loop state_overrides pairs [] []);
  if bad : bool then raise zip_strict_error
  else
    net_rate_of_exchange ←
      lift (Fraction (math_prod numerators) (math_prod denominators));
    if Fraction_lt net_rate_of_exchange min_rate_of_exchange
    then raise (RateOfExchangeBelowMinimum net_rate_of_exchange)
    else mret tt.

Definition _pre_calculation_check (min_rate_of_exchange : Q)
    (state_overrides : option (gmap string PoolState))
  : M UniswapLpCycle unit :=
  let state_overrides := default ∅ state_overrides in
  check_pools_viable state_overrides ≫= λ _,
  check_rate_of_exchange min_rate_of_exchange state_overrides.

End Cycle.

(** ** [_calculate], [calculate] and [calculate_with_pool] *)

Inductive SwapAmount : Type :=
  | UniswapV2PoolSwapAmounts (pool : string) (amounts_in amounts_out : Z * Z)
  | UniswapV3PoolSwapAmounts (pool : string) (amount_specified : Z)
      (zero_for_one : bool) (sqrt_price_limit_x96 : Z).

Module ArbitrageCalculationResult.
Record t : Type := {
  id : string;
  input_token : Erc20Token;
  profit_token : Erc20Token;
  input_amount : Z;
  profit_amount : Z;
  swap_amounts : list SwapAmount;
  state_block : option Z
}.
End ArbitrageCalculationResult.

(** The three pairs of pool class and state class that [arb_profit] and
    [_build_swap_amounts] accept, in the order of their [case]s. *)
Inductive PoolFamily : Type := FamilyAerodromeV2 | FamilyUniswapV2 | FamilyUniswapV3.

Definition match_pool_state (c : PoolClass) (s : PoolState) : option PoolFamily :=
  match c, s with
  | AerodromeV2Pool, AerodromeV2PoolState _ _ _ => Some FamilyAerodromeV2
  | UniswapV2Pool, UniswapV2PoolState _ _ _ => Some FamilyUniswapV2
  | (UniswapV3Pool | AerodromeV3Pool), UniswapV3PoolState _ _ _ _ _ =>
      Some FamilyUniswapV3
  | _, _ => None
  end.

(** The same with [None] in the place of the state ([... | None] patterns). *)
Definition match_pool_override (c : PoolClass) (s : option PoolState)
  : option PoolFamily :=
  match s with
  | Some s => match_pool_state c s
  | None =>
      match c with
      | AerodromeV2Pool => Some FamilyAerodromeV2
      | UniswapV2Pool => Some FamilyUniswapV2
      | UniswapV3Pool | AerodromeV3Pool => Some FamilyUniswapV3
      end
  end.

(** [{pool.address: pool.state for pool in self.swap_pools}], later pools
    overwriting earlier ones at the same address. *)
Definition states_by_address (pools : list Pool) : gmap string PoolState :=
  fold_left (λ acc pool, <[address pool := state pool]> acc) pools ∅.

(** [pool_states.update(state_overrides)] *)
Definition pool_states_of (pools : list Pool)
    (state_overrides : option (gmap string PoolState)) : gmap string PoolState :=
  match state_overrides with
  | Some overrides => overrides ∪ states_by_address pools
  | None => states_by_address pools
  end.

(** The loop over [pool_states.values()] that computes [newest_state_block]. *)
Fixpoint newest_state_block_loop (states : list PoolState) (newest : option Z)
  : option Z :=
  match states with
  | [] => newest
  | state :: rest =>
      match block state with
      | None => None
      | Some b =>
          newest_state_block_loop rest
            (Some (match newest with Some n => Z.max n b | None => b end))
      end
  end.

Definition newest_state_block (pool_states : gmap string PoolState) : option Z :=
  newest_state_block_loop (map_to_list pool_states).*2 None.

Inductive Executor : Type := ProcessPoolExecutor | ThreadPoolExecutor.

(** What [run_in_executor] hands to the executor: [self._calculate] and its
    argument. *)
Record Submission : Type := {
  submitted_to : Executor;
  submitted_state_overrides : option (gmap string PoolState)
}.

Section Calculation.

(** The binding of the name [get_sqrt_ratio_at_tick] (see [_pool_is_viable]),
    and the collaborators outside the translated sources, taken as
    parameters: the swap calculation of the pool classes, Python floats with
    [int(x)], [float(n)] and negation, and SciPy's bounded scalar minimizer
    called on a function and the bounds and bracket derived from
    [max_input]. *)
Variable get_sqrt_ratio_at_tick : Z -> result Z.
Variable calculate_tokens_out_from_tokens_in :
  Pool -> Erc20Token -> Z -> option PoolState -> result Z.
Variable float : Type.
Variable int_of_float : float -> Z.
Variable float_of_int : Z -> float.
Variable float_neg : float -> float.
Variable minimize_scalar : (float -> result float) -> Z -> result (float * float).
Variables MIN_SQRT_RATIO MAX_SQRT_RATIO : Z.

(** *** [arb_profit] *)

(** The body of the loop for one hop: the state of the pool, then the swap
    calculation of the matching [case] on the quantity handed in. *)
Definition hop_swap (pool_states : gmap string PoolState)
    (hop : Pool * UniswapPoolSwapVector) (quantity_in : Z) : result Z :=
  let '(pool, swap_vector) := hop in
  state ← dict_getitem pool_states (address pool);
  match match_pool_state (pool_class pool) state with
  | Some _ =>
      calculate_tokens_out_from_tokens_in pool (token_in swap_vector)
        quantity_in (Some state)
  | None => Raise (DegenbotValueError "Unrecognized pool and state.")
  end.

(** The [for] loop inside the [try]; [first] is [i == 0]. *)
Fixpoint arb_profit_loop (pool_states : gmap string PoolState)
    (l : list (Pool * UniswapPoolSwapVector)) (bad : bool) (first : bool)
    (token_in_quantity token_out_quantity : Z) : result Z :=
  match l with
  | [] => if bad then Raise zip_strict_error else Ok token_out_quantity
  | hop :: l' =>
      token_out_quantity ←
        hop_swap pool_states hop
          (if first then token_in_quantity else token_out_quantity);
      arb_profit_loop pool_states l' bad false token_in_quantity
        token_out_quantity
  end.

Definition arb_profit (self : UniswapLpCycle)
    (pool_states : gmap string PoolState) (x : float) : result float :=
  let token_in_quantity := int_of_float x in
  let '(pairs, bad) := zip_strict (swap_pools self) (_swap_vectors self) in
  token_out_quantity ←
    match arb_profit_loop pool_states pairs bad true token_in_quantity 0 with
    | Ok out => Ok out
    | Raise e =>
        if is_EVMRevert_or_LiquidityPoolError e then Ok 0 else Raise e
    end;
  Ok (float_neg (float_of_int (token_out_quantity - token_in_quantity))).

(** *** [_build_swap_amounts] *)

Definition build_swap_amount (pool : Pool) (swap_vector : UniswapPoolSwapVector)
    (pool_state_override : option PoolState) (_token_in_quantity : Z)
  : result (Z * SwapAmount) :=
  let attempt : result (Z * SwapAmount) :=
    match match_pool_override (pool_class pool) pool_state_override with
    | Some family =>
        _token_out_quantity ←
          calculate_tokens_out_from_tokens_in pool (token_in swap_vector)
            _token_in_quantity pool_state_override;
        if _token_out_quantity =? 0 then
          Raise (ArbitrageError ("Zero-output swap through pool @ "
                                   +:+ address pool))
        else
          match family with
          | FamilyAerodromeV2 | FamilyUniswapV2 =>
              Ok (_token_out_quantity,
                  UniswapV2PoolSwapAmounts (address pool)
                    (if zero_for_one swap_vector
                     then (_token_in_quantity, 0) else (0, _token_in_quantity))
                    (if zero_for_one swap_vector
                     then (0, _token_out_quantity) else (_token_out_quantity, 0)))
          | FamilyUniswapV3 =>
              Ok (_token_out_quantity,
                  UniswapV3PoolSwapAmounts (address pool) _token_in_quantity
                    (zero_for_one swap_vector)
                    (if zero_for_one swap_vector
                     then MIN_SQRT_RATIO + 1 else MAX_SQRT_RATIO - 1))
          end
    | None =>
        Raise (DegenbotValueError "Could not identify pool and override type.")
    end in
  match attempt with
  | Raise (LiquidityPoolError msg) => Raise (ArbitrageError msg)
  | r => r
  end.

Fixpoint build_swap_amounts_loop (pool_state_overrides : gmap string PoolState)
    (l : list (Pool * UniswapPoolSwapVector)) (bad : bool) (first : bool)
    (token_in_quantity _token_out_quantity : Z) (swap_amounts : list SwapAmount)
  : result (list SwapAmount) :=
  match l with
  | [] => if bad then Raise zip_strict_error else Ok swap_amounts
  | (pool, swap_vector) :: l' =>
      '(out, amount) ←
        build_swap_amount pool swap_vector
          (pool_state_overrides !! address pool)
          (if first then token_in_quantity else _token_out_quantity);
      build_swap_amounts_loop pool_state_overrides l' bad false
        token_in_quantity out (swap_amounts ++ [amount])
  end.

Definition _build_swap_amounts (self : UniswapLpCycle) (token_in_quantity : Z)
    (pool_state_overrides : gmap string PoolState) : result (list SwapAmount) :=
  let '(pairs, bad) := zip_strict (swap_pools self) (_swap_vectors self) in
  build_swap_amounts_loop pool_state_overrides pairs bad true
    token_in_quantity 0 [].

(** *** [_calculate] *)

Definition _calculate (self : UniswapLpCycle)
    (state_overrides : option (gmap string PoolState))
  : result ArbitrageCalculationResult.t :=
  let pool_states := pool_states_of (swap_pools self) state_overrides in
  '(opt_x, opt_fun) ←
    minimize_scalar (arb_profit self pool_states) (max_input self);
  let best_profit := - int_of_float opt_fun in
  let swap_amount := int_of_float opt_x in
  best_amounts ← _build_swap_amounts self swap_amount pool_states;
  Ok {| ArbitrageCalculationResult.id := id self;
        ArbitrageCalculationResult.input_token := input_token self;
        ArbitrageCalculationResult.profit_token := input_token self;
        ArbitrageCalculationResult.input_amount := swap_amount;
        ArbitrageCalculationResult.profit_amount := best_profit;
        ArbitrageCalculationResult.swap_amounts := best_amounts;
        ArbitrageCalculationResult.state_block :=
          newest_state_block pool_states |}.

Definition calculate (state_overrides : option (gmap string PoolState))
    (min_rate_of_exchange : Q)
  : M UniswapLpCycle ArbitrageCalculationResult.t :=
  _pre_calculation_check get_sqrt_ratio_at_tick min_rate_of_exchange
    state_overrides ≫= λ _,
  self ← reads (λ self, self);
  lift (_calculate self state_overrides).

(** *** [calculate_with_pool]

    The state is the cycle together with the queue of the executor the caller
    supplies; the value returned stands for the future of the submitted
    call. *)

Definition sparse_refusal : PyException :=
  DegenbotValueError
    "Cannot perform calculation with process pool executor. One or more V3 pools has a sparse bitmap.".

Definition any_sparse_v3_pool (pools : list Pool) : bool :=
  existsb sparse_liquidity_map
    (filter (λ pool, isinstance_UniswapV3Pool (pool_class pool) = true) pools).

Definition run_in_executor (executor : Executor)
    (state_overrides : option (gmap string PoolState))
  : M (UniswapLpCycle * list Submission) Submission :=
  let submission := {| submitted_to := executor;
                       submitted_state_overrides := state_overrides |} in
  modify (λ st, (st.1, st.2 ++ [submission])) ≫= λ _, mret submission.

Definition calculate_with_pool (executor : Executor)
    (state_overrides : option (gmap string PoolState))
    (min_rate_of_exchange : Q)
  : M (UniswapLpCycle * list Submission) Submission :=
  pools ← reads (λ st, swap_pools st.1);
  if match executor with ProcessPoolExecutor => true | _ => false end
     && any_sparse_v3_pool pools
  then raise sparse_refusal
  else
    zoom (_pre_calculation_check get_sqrt_ratio_at_tick min_rate_of_exchange
            state_overrides) ≫= λ _,
    run_in_executor executor state_overrides.

End Calculation.

(** ** [generate_payloads] *)

(** The calldata of a payload, kept structured: the function called (its
    four-byte selector) and the arguments handed to [eth_abi.abi.encode]. *)
Inductive Calldata : Type :=
  (** [transfer(address,uint256)] *)
  | call_transfer (recipient : string) (amount : Z)
  (** [swap(uint256,uint256,address,bytes)] *)
  | call_swap_v2 (amount0_out amount1_out : Z) (recipient : string)
      (data : string)
  (** [swap(address,bool,int256,uint160,bytes)] *)
  | call_swap_v3 (recipient : string) (zero_for_one : bool)
      (amount_specified sqrt_price_limit_x96 : Z) (data : string).

Definition Payload : Type := string * Calldata * Z.

Section Payloads.

(** [eth_utils.address.to_checksum_address] on a string, a parameter. *)
Variable to_checksum_address : string -> result string.

Definition swap_destination (pools : list Pool) (i : nat)
    (from_address : string) : string :=
  if Z.of_nat i <? Z.of_nat (length pools) - 1 then
    match pools !! S i with
    | Some next_pool =>
        if isinstance_V2 (pool_class next_pool) then address next_pool
        else from_address
    | None => from_address
    end
  else from_address.

Definition payload_of_hop (self : UniswapLpCycle) (from_address : string)
    (swap_amount : Z) (i : nat) (swap_pool : Pool) (_swap_amounts : SwapAmount)
  : result Payload :=
  let msg_value := 0 in
  let swap_destination_address :=
    swap_destination (swap_pools self) i from_address in
  if (Nat.eqb i 0) && isinstance_V2 (pool_class swap_pool) then
    Ok (token_address (input_token self),
        call_transfer (address swap_pool) swap_amount, msg_value)
  else
    match _swap_amounts with
    | UniswapV2PoolSwapAmounts _ _ amounts_out =>
        if isinstance_V2 (pool_class swap_pool) then
          Ok (address swap_pool,
              call_swap_v2 amounts_out.1 amounts_out.2
                swap_destination_address "", msg_value)
        else
          Raise (DegenbotValueError "Could not identify pool and swap amounts.")
    | UniswapV3PoolSwapAmounts _ amount_specified zero_for_one
        sqrt_price_limit_x96 =>
        if isinstance_UniswapV3Pool (pool_class swap_pool) then
          Ok (address swap_pool,
              call_swap_v3 swap_destination_address zero_for_one
                amount_specified sqrt_price_limit_x96 "", msg_value)
        else
          Raise (DegenbotValueError "Could not identify pool and swap amounts.")
    end.

Fixpoint generate_payloads_loop (self : UniswapLpCycle) (from_address : string)
    (swap_amount : Z) (l : list (Pool * SwapAmount)) (bad : bool) (i : nat)
    (payloads : list Payload) : result (list Payload) :=
  match l with
  | [] => if bad then Raise zip_strict_error else Ok payloads
  | (swap_pool, _swap_amounts) :: l' =>
      payload ← payload_of_hop self from_address swap_amount i swap_pool
                  _swap_amounts;
      generate_payloads_loop self from_address swap_amount l' bad (S i)
        (payloads ++ [payload])
  end.

Definition generate_payloads (self : UniswapLpCycle) (from_address : string)
    (swap_amount : Z) (pool_swap_amounts : list SwapAmount)
  : result (list Payload) :=
  from_address ← to_checksum_address from_address;
  let '(pairs, bad) := zip_strict (swap_pools self) pool_swap_amounts in
  generate_payloads_loop self from_address swap_amount pairs bad O [].

End Payloads.

(** ** [notify] *)

Section Notification.

Variable get_sqrt_ratio_at_tick : Z -> result Z.

(** [try: m  except ArbitrageError: return  else: ...]: whether [m] ended
    without an exception; other exceptions propagate. *)
Definition succeeds_unless_ArbitrageError {S} (m : M S unit) : M S bool :=
  fun s =>
    match m s with
    | (Ok _, s') => (Ok true, s')
    | (Raise e, s') =>
        if is_ArbitrageError e then (Ok false, s') else (Raise e, s')
    end.

(** A message from [publisher], a pool; [message_state] is the state the
    message carries.  The publisher matches one of the four pool classes of
    the first sub-pattern, so the class pattern [PoolStateMessage()] is tried
    next: its name is looked up before the guard and the body of the [case]
    run.  The value returned is the text sent to the subscribers of the
    cycle, if any. *)
Definition notify (publisher : Pool) (message_state : PoolState)
  : M UniswapLpCycle (option string) :=
  lift unbound_PoolStateMessage ≫= λ _,
  pools ← reads swap_pools;
  if existsb (λ p, bool_decide (address p = address publisher)) pools then
    vectors ← reads _swap_vectors;
    i ← lift (pools_index pools publisher);
    vector ← lift (getitem vectors i);
    viable ← lift (_pool_is_viable get_sqrt_ratio_at_tick publisher
                     message_state vector);
    modify (λ self, set_pool_viability self (address publisher) viable) ≫= λ _,
    profitable ← succeeds_unless_ArbitrageError
                   (_pre_calculation_check get_sqrt_ratio_at_tick 1%Q None);
    if profitable : bool then mret (Some "Profitable state discovered.")
    else mret None
  else mret None.

End Notification.

(** ** [decode_v3_path] *)

Module V3Functions.

Inductive PathItem : Type :=
  | PathAddress (a : string)
  | PathFee (n : Z).

(** [int.from_bytes(chunk)], big-endian by default. *)
Definition int_from_bytes (chunk : list Byte.byte) : Z :=
  fold_left (λ acc b, acc * 256 + Z.of_N (Byte.to_N b)) chunk 0.

(** [path[a : a + n]] for in-range and out-of-range bounds alike. *)
Definition slice (path : list Byte.byte) (a n : nat) : list Byte.byte :=
  take n (drop a path).

Section Decode.

(** [to_checksum_address] on a chunk of bytes, a parameter. *)
Variable to_checksum_address : list Byte.byte -> result string.

(** The loop over [cycle(((20, ...), (3, ...)))]; [fuel] bounds the number of
    chunks read, [address_next] tells which of the two extractors is next.
    [None] means the loop is still running when the fuel is spent. *)
Fixpoint decode_loop (fuel : nat) (path : list Byte.byte) (path_pos : nat)
    (address_next : bool) (decoded_path : list PathItem)
  : option (result (list PathItem)) :=
  match fuel with
  | O => None
  | S fuel' =>
      let byte_length := if address_next then 20%nat else 3%nat in
      let chunk := slice path path_pos byte_length in
      let item : result PathItem :=
        if address_next then a ← to_checksum_address chunk; Ok (PathAddress a)
        else Ok (PathFee (int_from_bytes chunk)) in
      match item with
      | Raise e => Some (Raise e)
      | Ok item =>
          let decoded_path := decoded_path ++ [item] in
          let path_pos := (path_pos + byte_length)%nat in
          if Nat.eqb path_pos (length path) then Some (Ok decoded_path)
          else decode_loop fuel' path path_pos (negb address_next) decoded_path
      end
  end.

Definition decode_v3_path (fuel : nat) (path : list Byte.byte)
  : option (result (list PathItem)) :=
  decode_loop fuel path 0 true [].

End Decode.

End V3Functions.

(** ** [BalancerV2Pool.calculate_tokens_out_from_tokens_in] *)

Module Balancer.

Record BalancerV2PoolState : Type := {
  block : option Z;
  balances : list Z
}.

Record BalancerV2Pool : Type := {
  address : string;
  tokens : list Erc20Token;
  scaling_factors : list Z;
  weights : list Z;
  fee : Q;
  state : BalancerV2PoolState
}.

Definition FEE_DENOMINATOR : Z := 1 * 10 ^ 18.

(** [tuple.index] on tokens. *)
Fixpoint tokens_index (l : list Erc20Token) (token : Erc20Token) : result nat :=
  match l with
  | [] => Raise (ValueError "tuple.index(x): x not in tuple")
  | t :: l' =>
      if bool_decide (t = token) then Ok O
      else i ← tokens_index l' token; Ok (S i)
  end.

(** [int(x)] on a number: truncation toward zero. *)
Definition int (x : Q) : Z := Z.quot (Qnum x) (Zpos (Qden x)).

Section Adapter.

(** The fixed-point library ([fixed_point], [scaling_helpers],
    [weighted_math]) is outside the translated sources: its functions are
    parameters, on Python numbers (integers or fractions), and may raise.
    [_upscaleArray] returns the array it leaves behind. *)
Variable mulUp : Q -> Q -> result Q.
Variable _subtractSwapFeeAmount : Q -> Q -> result Q.
Variable _upscaleArray : list Q -> list Z -> result (list Q).
Variable _upscale : Q -> Z -> result Q.
Variable _calcOutGivenIn : Z -> Z -> Z -> Z -> Z -> result Q.
Variable _downscaleDown : Q -> Z -> result Q.

Definition calculate_tokens_out_from_tokens_in (self : BalancerV2Pool)
    (token_in : Erc20Token) (token_in_quantity : Z) (token_out : Erc20Token)
    (override_state : option BalancerV2PoolState) : result Z :=
  token_in_index ← tokens_index (tokens self) token_in;
  token_out_index ← tokens_index (tokens self) token_out;
  let fee_percentage := Qred (fee self * inject_Z FEE_DENOMINATOR) in
  fee_amount ← mulUp (inject_Z token_in_quantity) fee_percentage;
  amount_new ← _subtractSwapFeeAmount (inject_Z token_in_quantity)
                 fee_percentage;
  if negb (Qeq_bool (inject_Z token_in_quantity - fee_amount) amount_new)
  then Raise AssertionError
  else
    let balances := inject_Z <$> balances (state self) in
    balances ← _upscaleArray balances (scaling_factors self);
    scaling_in ← getitem (scaling_factors self) token_in_index;
    amount_new ← _upscale amount_new scaling_in;
    balance_in ← getitem balances token_in_index;
    weight_in ← getitem (weights self) token_in_index;
    balance_out ← getitem balances token_out_index;
    weight_out ← getitem (weights self) token_out_index;
    amountOut ← _calcOutGivenIn (int balance_in) weight_in (int balance_out)
                  weight_out (int amount_new);
    scaling_out ← getitem (scaling_factors self) token_out_index;
    downscaled ← _downscaleDown amountOut scaling_out;
    Ok (int downscaled).

End Adapter.

End Balancer.

(** ** Notions used to state the properties *)

(** The two reserves of a constant-product state. *)
Definition reserves_of (s : PoolState) : option (Z * Z) :=
  match s with
  | AerodromeV2PoolState _ r0 r1 | UniswapV2PoolState _ r0 r1 => Some (r0, r1)
  | UniswapV3PoolState _ _ _ _ _ => None
  end.

(** The reserve a trade along [vector] draws down: the reserve of the token
    that leaves the pool. *)
Definition reserve_drawn_down (r0 r1 : Z) (vector : UniswapPoolSwapVector) : Z :=
  if zero_for_one vector then r1 else r0.

(** A liquidity position on the side a trade along [vector] consumes: a tick of
    [tick_data] whose price is below the current price for a zero-for-one
    trade, above it for a one-for-zero trade. *)
Definition position_on_consumed_side (get_sqrt_ratio_at_tick : Z -> result Z)
    (vector : UniswapPoolSwapVector) (sqrt_price_x96 : Z)
    (tick_data : gmap Z UniswapV3LiquidityAtTick) : Prop :=
  ∃ t r, is_Some (tick_data !! t) ∧ get_sqrt_ratio_at_tick t = Ok r ∧
         if zero_for_one vector then r < sqrt_price_x96 else sqrt_price_x96 < r.

(** ** Concrete pools and cycles *)

Module Examples.

Definition WETH : Erc20Token := {| token_address := "0xC02a" |}.
Definition DAI : Erc20Token := {| token_address := "0x6B17" |}.

(** A tick math for the examples: defined on a range of ticks, increasing. *)
Definition tick_math (t : Z) : result Z :=
  if (-887272 <=? t) && (t <=? 887272) then Ok (1000000 + t)
  else Raise EVMRevertError.

Definition no_fee : Q := 0 # 1.
Definition fee_03 : Q := 3 # 1000.

Definition v2_pool (a : string) (r0 r1 : Z) : Pool :=
  {| pool_class := UniswapV2Pool; address := a; token0 := WETH; token1 := DAI;
     state := UniswapV2PoolState (Some 100) r0 r1;
     fee_token0 := fee_03; fee_token1 := fee_03; fee := 0;
     sparse_liquidity_map := false |}.

(** The two-hop scenario of the specification: reserves (1000, 1000) then
    (1050, 950), both with a fee of 0.3%. *)
Definition lp1 : Pool := v2_pool "0xAAA1" 1000 1000.
Definition lp2 : Pool := v2_pool "0xAAA2" 1050 950.

Definition two_ticks : gmap Z UniswapV3LiquidityAtTick :=
  {[ (-60) := {| liquidity_net := 5; liquidity_gross := 5 |};
     120 := {| liquidity_net := -5; liquidity_gross := 5 |} ]}.

Definition v3_pool (a : string) (sparse : bool) (price : Z)
    (ticks : gmap Z UniswapV3LiquidityAtTick) : Pool :=
  {| pool_class := UniswapV3Pool; address := a; token0 := WETH; token1 := DAI;
     state := UniswapV3PoolState (Some 100) 5 price 0 ticks;
     fee_token0 := no_fee; fee_token1 := no_fee; fee := 3000;
     sparse_liquidity_map := sparse |}.

Definition lp3 : Pool := v3_pool "0xBBB3" false 1000000 two_ticks.
Definition lp3_sparse : Pool := v3_pool "0xBBB4" true 1000000 ∅.

Definition weth_to_dai : UniswapPoolSwapVector :=
  {| token_in := WETH; token_out := DAI; zero_for_one := true |}.
Definition dai_to_weth : UniswapPoolSwapVector :=
  {| token_in := DAI; token_out := WETH; zero_for_one := false |}.

Definition cycle_of (pools : list Pool) (viability : gmap string bool)
  : UniswapLpCycle :=
  {| swap_pools := pools; id := "cycle"; input_token := WETH; max_input := 500;
     _swap_vectors := take (length pools) [weth_to_dai; dai_to_weth];
     _pool_viability := viability |}.

Definition two_hop_cycle : UniswapLpCycle :=
  cycle_of [lp1; lp2] {[ "0xAAA1" := true; "0xAAA2" := true ]}.

(** A cycle through a concentrated-liquidity pool with a sparse liquidity
    map. *)
Definition sparse_cycle : UniswapLpCycle :=
  cycle_of [lp1; lp3_sparse] {[ "0xAAA1" := true; "0xBBB4" := true ]}.

(** The two-hop cycle with a cached flag that says the second pool is not
    viable. *)
Definition flagged_cycle : UniswapLpCycle :=
  cycle_of [lp1; lp2] {[ "0xAAA1" := true; "0xAAA2" := false ]}.

(** A cycle whose second pool has a sparse liquidity map and no price yet. *)
Definition lp3_unpriced : Pool := v3_pool "0xBBB5" true 0 ∅.
Definition unpriced_cycle : UniswapLpCycle :=
  cycle_of [lp1; lp3_unpriced] {[ "0xAAA1" := true; "0xBBB5" := true ]}.

(** A concentrated-liquidity pool with a sparse liquidity map followed by a
    constant-product pool. *)
Definition sparse_first_cycle : UniswapLpCycle :=
  cycle_of [lp3_sparse; lp2] {[ "0xBBB4" := true; "0xAAA2" := true ]}.

(** A swap calculation for the examples: the constant-product formula on the
    reserves of the state handed in, with a fee of 0.3%; it raises
    [LiquidityPoolError] on a non-positive input. *)
Definition swap_adapter (pool : Pool) (token : Erc20Token) (quantity : Z)
    (override_state : option PoolState) : result Z :=
  match reserves_of (default (state pool) override_state) with
  | Some (r0, r1) =>
      if quantity <=? 0 then Raise (LiquidityPoolError "zero input")
      else
        let '(r_in, r_out) :=
          if bool_decide (token = token0 pool) then (r0, r1) else (r1, r0) in
        Ok (quantity * 997 * r_out / (r_in * 1000 + quantity * 997))
  | None => Raise EVMRevertError
  end.

(** Floats for the examples: rationals, [int(x)] truncating toward zero. *)
Definition int_of_Q (x : Q) : Z := Z.quot (Qnum x) (Zpos (Qden x)).

(** A stand-in for the scalar minimizer: it probes one point, a fifth of the
    maximum input. *)
Definition probe_once (f : Q → result Q) (max_input : Z) : result (Q * Q) :=
  let x := inject_Z (max_input / 5) in
  y ← f x; Ok (x, y).

(** A weighted pool and stand-ins for the fixed-point library: no scaling,
    equal weights, amounts rounded down. *)
Definition weighted_pool (balances : list Z) : Balancer.BalancerV2Pool :=
  {| Balancer.address := "0xBA12"; Balancer.tokens := [WETH; DAI];
     Balancer.scaling_factors := [1; 1]; Balancer.weights := [50; 50];
     Balancer.fee := 1 # 100;
     Balancer.state := {| Balancer.block := Some 100;
                          Balancer.balances := balances |} |}.

Definition fee_of (amount fee_percentage : Q) : Q :=
  Qred (amount * fee_percentage / inject_Z Balancer.FEE_DENOMINATOR).

Definition weighted_out (pool : Balancer.BalancerV2Pool)
    (override_state : option Balancer.BalancerV2PoolState) : result Z :=
  Balancer.calculate_tokens_out_from_tokens_in
    (λ a b, Ok (fee_of a b)) (λ a b, Ok (Qred (a - fee_of a b)))
    (λ balances _, Ok balances) (λ a _, Ok a)
    (λ balance_in _ balance_out _ amount_in,
       Ok (inject_Z (balance_out * amount_in / (balance_in + amount_in))))
    (λ a _, Ok a) pool WETH 100 DAI override_state.

End Examples.

(** *** The rate of exchange, as the specification words it *)

(** The fee a hop charges: the fee on the token that enters the pool for a
    constant-product pool, [fee] millionths for a concentrated-liquidity
    pool. *)
Definition hop_fee (pool : Pool) (pool_state : PoolState)
    (vector : UniswapPoolSwapVector) : Q :=
  match pool_state with
  | AerodromeV2PoolState _ _ _ | UniswapV2PoolState _ _ _ =>
      if zero_for_one vector then fee_token0 pool else fee_token1 pool
  | UniswapV3PoolState _ _ _ _ _ => inject_Z (fee pool) / inject_Z 1000000
  end.

(** The price of a hop before fees: reserve out over reserve in, or the
    squared square-root price over 2^192 (inverted for a one-for-zero
    trade). *)
Definition hop_price (pool_state : PoolState) (vector : UniswapPoolSwapVector)
  : Q :=
  match pool_state with
  | AerodromeV2PoolState _ r0 r1 | UniswapV2PoolState _ r0 r1 =>
      if zero_for_one vector then inject_Z r1 / inject_Z r0
      else inject_Z r0 / inject_Z r1
  | UniswapV3PoolState _ _ sqrt_price_x96 _ _ =>
      if zero_for_one vector
      then inject_Z (sqrt_price_x96 * sqrt_price_x96) / inject_Z (2 ^ 192)
      else inject_Z (2 ^ 192) / inject_Z (sqrt_price_x96 * sqrt_price_x96)
  end.

(** The rate of one hop: reserves_out·(feeDenominator−feeNumerator) over
    reserves_in·feeDenominator, or sqrtPrice²·(1000000−fee) over
    2^192·1000000 (inverted in the price for a one-for-zero trade). *)
Definition hop_rate (pool : Pool) (pool_state : PoolState)
    (vector : UniswapPoolSwapVector) : Q :=
  match pool_state with
  | AerodromeV2PoolState _ r0 r1 | UniswapV2PoolState _ r0 r1 =>
      let f := if zero_for_one vector then fee_token0 pool else fee_token1 pool in
      let '(r_in, r_out) := if zero_for_one vector then (r0, r1) else (r1, r0) in
      inject_Z (r_out * (denominator f - numerator f))
        / inject_Z (r_in * denominator f)
  | UniswapV3PoolState _ _ sqrt_price_x96 _ _ =>
      if zero_for_one vector
      then inject_Z (sqrt_price_x96 * sqrt_price_x96 * (1000000 - fee pool))
             / inject_Z (2 ^ 192 * 1000000)
      else inject_Z (2 ^ 192 * (1000000 - fee pool))
             / inject_Z (sqrt_price_x96 * sqrt_price_x96 * 1000000)
  end.

Definition Qproduct (l : list Q) : Q := fold_right Qmult 1%Q l.

(** The hops of a cycle with the state each is priced at. *)
Definition hops (self : UniswapLpCycle) (overrides : gmap string PoolState)
  : list (Pool * PoolState * UniswapPoolSwapVector) :=
  (λ '(pool, vector), (pool, state_in_effect overrides pool, vector))
    <$> (zip_strict (swap_pools self) (_swap_vectors self)).1.

Definition net_rate (self : UniswapLpCycle) (overrides : gmap string PoolState)
  : Q :=
  Qproduct ((λ '(pool, st, vector), hop_rate pool st vector)
              <$> hops self overrides).

Definition fee_factor_product (self : UniswapLpCycle)
    (overrides : gmap string PoolState) : Q :=
  Qproduct ((λ '(pool, st, vector), (1 - hop_fee pool st vector)%Q)
              <$> hops self overrides).

Definition price_product (self : UniswapLpCycle)
    (overrides : gmap string PoolState) : Q :=
  Qproduct ((λ '(pool, st, vector), hop_price st vector)
              <$> hops self overrides).

(** A hop the rate check can price: the pool and the state are of matching
    kinds and the side that enters the pool is not empty (a zero reserve or a
    zero price makes the denominator of the rate zero). *)
Definition hop_priced (pool : Pool) (pool_state : PoolState)
    (vector : UniswapPoolSwapVector) : Prop :=
  match pool_state with
  | AerodromeV2PoolState _ r0 r1 | UniswapV2PoolState _ r0 r1 =>
      isinstance_V2 (pool_class pool) = true ∧
      (if zero_for_one vector then r0 else r1) ≠ 0
  | UniswapV3PoolState _ _ sqrt_price_x96 _ _ =>
      isinstance_UniswapV3Pool (pool_class pool) = true ∧
      (zero_for_one vector = false → sqrt_price_x96 ≠ 0)
  end.

(** *** Chained hops, contributing states, big-endian numbers *)

(** The output of each hop fed to the next one as its input. *)
Fixpoint chain (hop_functions : list (Z → result Z)) (quantity : Z) : result Z :=
  match hop_functions with
  | [] => Ok quantity
  | f :: rest => out ← f quantity; chain rest out
  end.

(** What a whole cycle puts out for [quantity] put in; a cycle without hops
    puts out nothing. *)
Definition whole_cycle_output (hop_functions : list (Z → result Z))
    (quantity : Z) : result Z :=
  match hop_functions with
  | [] => Ok 0
  | _ => chain hop_functions quantity
  end.

(** What the swap calculation of the pool of a hop puts out for [quantity],
    asked at the state the dictionary [pool_states] holds for the pool. *)
Definition hop_quote
    (calculate_tokens_out_from_tokens_in :
       Pool → Erc20Token → Z → option PoolState → result Z)
    (pool_states : gmap string PoolState)
    (hop : Pool * UniswapPoolSwapVector) (quantity : Z) : result Z :=
  calculate_tokens_out_from_tokens_in hop.1 (token_in hop.2) quantity
    (pool_states !! address hop.1).

(** The pool states that contribute to a calculation: for every pool of the
    cycle, the override given for its address, or its cached state when none
    is given. *)
Definition contributing_states (self : UniswapLpCycle)
    (state_overrides : option (gmap string PoolState)) : list PoolState :=
  (λ pool, default (state pool)
             (state_overrides ≫= λ overrides, overrides !! address pool))
    <$> swap_pools self.

(** The states handed in for addresses at which the cycle has no pool. *)
Definition stray_overrides (self : UniswapLpCycle)
    (state_overrides : option (gmap string PoolState)) : list PoolState :=
  (map_to_list
     (filter (λ entry, entry.1 ∉ address <$> swap_pools self)
        (default ∅ state_overrides))).*2.

(** The unsigned number a string of bytes denotes, most significant byte
    first. *)
Fixpoint big_endian (chunk : list Byte.byte) : Z :=
  match chunk with
  | [] => 0
  | b :: rest => Z.of_N (Byte.to_N b) * 256 ^ Z.of_nat (length rest)
                 + big_endian rest
  end.



(** *** Contiguous swap vectors *)

(** The vectors follow the pools from [current_token] on: each vector takes
    the token handed to its hop, trades it against the other token of its
    pool in the direction that says so, and hands on what it receives. *)
Fixpoint contiguous (current_token : Erc20Token) (pools : list Pool)
    (vectors : list UniswapPoolSwapVector) : Prop :=
  match pools, vectors with
  | [], [] => True
  | pool :: pools', v :: vectors' =>
      token_in v = current_token ∧
      ((zero_for_one v = true ∧ token_in v = token0 pool ∧
        token_out v = token1 pool) ∨
       (zero_for_one v = false ∧ token_in v = token1 pool ∧
        token_out v = token0 pool)) ∧
      contiguous (token_out v) pools' vectors'
  | _, _ => False
  end.

(** *** Hops the rate check cannot price *)

(** The pool and the state of a hop are of matching kinds. *)
Definition hop_identified (pool : Pool) (pool_state : PoolState) : Prop :=
  match pool_state with
  | AerodromeV2PoolState _ _ _ | UniswapV2PoolState _ _ _ =>
      isinstance_V2 (pool_class pool) = true
  | UniswapV3PoolState _ _ _ _ _ =>
      isinstance_UniswapV3Pool (pool_class pool) = true
  end.

(** The side a trade enters is empty: a zero reserve of the token put in, or
    a zero price for a one-for-zero trade through a concentrated-liquidity
    pool. *)
Definition hop_inbound_empty (pool_state : PoolState)
    (vector : UniswapPoolSwapVector) : Prop :=
  match pool_state with
  | AerodromeV2PoolState _ r0 r1 | UniswapV2PoolState _ r0 r1 =>
      (if zero_for_one vector then r0 else r1) = 0
  | UniswapV3PoolState _ _ sqrt_price_x96 _ _ =>
      zero_for_one vector = false ∧ sqrt_price_x96 = 0
  end.

(** *** Reading swap amounts *)

(** The pool a swap-amount record names, and the quantity it puts in. *)
Definition swap_amount_pool (amount : SwapAmount) : string :=
  match amount with
  | UniswapV2PoolSwapAmounts pool _ _ => pool
  | UniswapV3PoolSwapAmounts pool _ _ _ => pool
  end.

Definition swap_amount_input (amount : SwapAmount) : Z :=
  match amount with
  | UniswapV2PoolSwapAmounts _ amounts_in _ => amounts_in.1 + amounts_in.2
  | UniswapV3PoolSwapAmounts _ amount_specified _ _ => amount_specified
  end.

(** A record of the kind the class of [pool] calls for. *)
Definition swap_amount_fits (pool : Pool) (amount : SwapAmount) : Prop :=
  match amount with
  | UniswapV2PoolSwapAmounts _ _ _ => isinstance_V2 (pool_class pool) = true
  | UniswapV3PoolSwapAmounts _ _ _ _ =>
      isinstance_UniswapV3Pool (pool_class pool) = true
  end.

(** *** Reading calldata *)

(** The address a call pays out to: the recipient of a transfer, the
    destination of a swap. *)
Definition calldata_recipient (c : Calldata) : string :=
  match c with
  | call_transfer recipient _ => recipient
  | call_swap_v2 _ _ recipient _ => recipient
  | call_swap_v3 recipient _ _ _ _ => recipient
  end.

Definition is_swap_call (c : Calldata) : bool :=
  match c with
  | call_transfer _ _ => false
  | _ => true
  end.

(** The payload of the swap of hop [i]: called at the pool of the hop, with
    the amounts of the hop's record, paying out to the next pool of the cycle
    when there is one and it is a constant-product pool, and to [caller]
    otherwise; no value is sent along. *)
Definition swap_payload (pools : list Pool) (caller : string) (i : nat)
    (pool : Pool) (amount : SwapAmount) : Payload :=
  let recipient :=
    match pools !! S i with
    | Some next_pool =>
        match pool_class next_pool with
        | AerodromeV2Pool | UniswapV2Pool => address next_pool
        | AerodromeV3Pool | UniswapV3Pool => caller
        end
    | None => caller
    end in
  (address pool,
   match amount with
   | UniswapV2PoolSwapAmounts _ _ (amount0_out, amount1_out) =>
       call_swap_v2 amount0_out amount1_out recipient ""
   | UniswapV3PoolSwapAmounts _ amount_specified zero_for_one
       sqrt_price_limit_x96 =>
       call_swap_v3 recipient zero_for_one amount_specified
         sqrt_price_limit_x96 ""
   end,
   0).

(** *** Packed V3 paths *)

(** A path as the routers pack it: a first address, then a fee and an address
    for every hop; and the items it stands for. *)
Definition pack_path (first : list Byte.byte)
    (rest : list (list Byte.byte * list Byte.byte)) : list Byte.byte :=
  first ++ concat ((λ '(f, a), f ++ a) <$> rest).

Definition path_items (checksum : list Byte.byte → string)
    (first : list Byte.byte) (rest : list (list Byte.byte * list Byte.byte))
  : list V3Functions.PathItem :=
  V3Functions.PathAddress (checksum first)
  :: concat ((λ '(f, a), [V3Functions.PathFee (big_endian f);
                          V3Functions.PathAddress (checksum a)]) <$> rest).

(** * Properties *)

(** ** Viability of one pool *)

Section ViabilityProperties.

Variable get_sqrt_ratio_at_tick : Z -> result Z.

Lemma fold_left_min_spec (l : list Z) (x : Z) :
  fold_left Z.min l x ∈ x :: l ∧ ∀ y, y ∈ x :: l → fold_left Z.min l x ≤ y.
Proof.
  revert x. induction l as [|a l IH]; intros x; simpl.
  - split; [by left|]. intros y Hy. apply list_elem_of_singleton in Hy. lia.
  - destruct (IH (Z.min x a)) as [Hin Hle]. split.
    + apply elem_of_cons in Hin as [Heq|Hin]; [|by do 2 right].
      rewrite Heq. destruct (Z.min_spec x a) as [[_ ->]|[_ ->]];
        [by left|by right; left].
    + intros y Hy.
      assert (Hm : fold_left Z.min l (Z.min x a) ≤ Z.min x a)
        by (apply Hle; by left).
      apply elem_of_cons in Hy as [->|Hy]; [lia|].
      apply elem_of_cons in Hy as [->|Hy]; [lia|].
      apply Hle. by right.
Qed.

Lemma fold_left_max_spec (l : list Z) (x : Z) :
  fold_left Z.max l x ∈ x :: l ∧ ∀ y, y ∈ x :: l → y ≤ fold_left Z.max l x.
Proof.
  revert x. induction l as [|a l IH]; intros x; simpl.
  - split; [by left|]. intros y Hy. apply list_elem_of_singleton in Hy. lia.
  - destruct (IH (Z.max x a)) as [Hin Hle]. split.
    + apply elem_of_cons in Hin as [Heq|Hin]; [|by do 2 right].
      rewrite Heq. destruct (Z.max_spec x a) as [[_ ->]|[_ ->]];
        [by right; left|by left].
    + intros y Hy.
      assert (Hm : Z.max x a ≤ fold_left Z.max l (Z.max x a))
        by (apply Hle; by left).
      apply elem_of_cons in Hy as [->|Hy]; [lia|].
      apply elem_of_cons in Hy as [->|Hy]; [lia|].
      apply Hle. by right.
Qed.

Lemma elem_of_tick_keys (tick_data : gmap Z UniswapV3LiquidityAtTick) (t : Z) :
  t ∈ tick_keys tick_data ↔ is_Some (tick_data !! t).
Proof.
  unfold tick_keys. rewrite list_elem_of_fmap. split.
  - intros [[k v] [-> Hkv]]. apply elem_of_map_to_list in Hkv. by exists v.
  - intros [v Hv]. exists (t, v). split; [done|]. by apply elem_of_map_to_list.
Qed.

Lemma tick_keys_nonempty (tick_data : gmap Z UniswapV3LiquidityAtTick) :
  tick_data ≠ ∅ → ∃ t l, tick_keys tick_data = t :: l.
Proof.
  intros Hne. unfold tick_keys.
  destruct (map_to_list tick_data) as [|[k v] l] eqn:E.
  - by apply map_to_list_empty_iff in E.
  - by exists k, (l.*1).
Qed.

(** C7: for a constant-product pool and state, the pool is viable exactly when
    both reserves are nonzero and the reserve the trade draws down (token1 for
    a zero-for-one trade, token0 otherwise) exceeds one unit. *)
Theorem pool_is_viable_constant_product
    (pool : Pool) (state : PoolState) (vector : UniswapPoolSwapVector)
    (r0 r1 : Z) :
  isinstance_V2 (pool_class pool) = true →
  reserves_of state = Some (r0, r1) →
  ∃ viable : bool,
    _pool_is_viable get_sqrt_ratio_at_tick pool state vector = Ok viable ∧
    (viable = true ↔ r0 ≠ 0 ∧ r1 ≠ 0 ∧ 1 < reserve_drawn_down r0 r1 vector).
Proof.
  intros Hclass Hres. unfold reserve_drawn_down.
  destruct state as [b a0 a1|b a0 a1|]; simplify_eq/=; rewrite Hclass;
    (destruct (Z.eqb_spec r0 0) as [->|H0]; simpl;
     [eexists; split; [reflexivity|]; split; [done|intros [? _]; done]|]);
    (destruct (Z.eqb_spec r1 0) as [->|H1]; simpl;
     [eexists; split; [reflexivity|]; split; [done|intros (_ & ? & _); done]|]);
    (eexists; split; [reflexivity|]);
    destruct (zero_for_one vector); rewrite Z.ltb_lt; tauto.
Qed.

(** What the last case of [_pool_is_viable] is written to do.  Were the name
    [get_sqrt_ratio_at_tick] bound to a function that is monotone and defined
    on the ticks of the pool (as the one of [tick_math] is), then, for a
    concentrated-liquidity pool, the comparisons of lines 284 and 287 would
    answer [True] exactly when a position lies on the side the trade
    consumes.  The module as it stands does not bind the name; what it does
    then is the subject of the theorem after this one. *)
Theorem pool_is_viable_concentrated
    (pool : Pool) (b : option Z) (liquidity sqrt_price_x96 tick : Z)
    (tick_data : gmap Z UniswapV3LiquidityAtTick)
    (vector : UniswapPoolSwapVector) :
  isinstance_UniswapV3Pool (pool_class pool) = true →
  (∀ t1 t2 r1 r2, t1 ≤ t2 → get_sqrt_ratio_at_tick t1 = Ok r1 →
                  get_sqrt_ratio_at_tick t2 = Ok r2 → r1 ≤ r2) →
  (∀ t, is_Some (tick_data !! t) → ∃ r, get_sqrt_ratio_at_tick t = Ok r) →
  let outcome :=
    _pool_is_viable get_sqrt_ratio_at_tick pool
      (UniswapV3PoolState b liquidity sqrt_price_x96 tick tick_data) vector in
  (sparse_liquidity_map pool = true → outcome = Ok true) ∧
  (sparse_liquidity_map pool = false → tick_data = ∅ → outcome = Ok false) ∧
  (sparse_liquidity_map pool = false → tick_data ≠ ∅ → sqrt_price_x96 = 0 →
   ∃ message, outcome = Raise (ValueError message)) ∧
  (sparse_liquidity_map pool = false → tick_data ≠ ∅ → sqrt_price_x96 ≠ 0 →
   ∃ viable : bool,
     outcome = Ok viable ∧
     (viable = true ↔
      position_on_consumed_side get_sqrt_ratio_at_tick vector sqrt_price_x96
        tick_data)).
Proof.
  intros Hclass Hmono Hdef outcome. subst outcome. simpl. rewrite Hclass.
  split; [by intros ->|]. split.
  { intros -> ->. by rewrite bool_decide_eq_true_2. }
  split.
  { intros -> Hne ->. rewrite bool_decide_eq_false_2 by done. simpl. eauto. }
  intros -> Hne Hprice. rewrite bool_decide_eq_false_2 by done.
  destruct (Z.eqb_spec sqrt_price_x96 0) as [|_]; [done|].
  destruct (tick_keys_nonempty _ Hne) as (t0 & l & Hkeys).
  unfold position_on_consumed_side.
  destruct (zero_for_one vector); rewrite Hkeys; simpl.
  - destruct (fold_left_min_spec l t0) as [Hin Hle]. rewrite <- Hkeys in Hin, Hle.
    apply elem_of_tick_keys in Hin as Hsome.
    destruct (Hdef _ Hsome) as [r Hr]. rewrite Hr. simpl.
    eexists; split; [reflexivity|]. rewrite Z.ltb_lt. split.
    + intros Hlt. exists (fold_left Z.min l t0), r. auto.
    + intros (t & r' & Ht & Hr' & Hlt).
      apply elem_of_tick_keys in Ht. specialize (Hle _ Ht).
      specialize (Hmono _ _ _ _ Hle Hr Hr'). lia.
  - destruct (fold_left_max_spec l t0) as [Hin Hle]. rewrite <- Hkeys in Hin, Hle.
    apply elem_of_tick_keys in Hin as Hsome.
    destruct (Hdef _ Hsome) as [r Hr]. rewrite Hr. simpl.
    eexists; split; [reflexivity|]. rewrite Z.ltb_lt. split.
    + intros Hlt. exists (fold_left Z.max l t0), r. auto.
    + intros (t & r' & Ht & Hr' & Hlt).
      apply elem_of_tick_keys in Ht. specialize (Hle _ Ht).
      specialize (Hmono _ _ _ _ Hle Hr' Hr). lia.
Qed.

(** C3: in the module as it stands, for a concentrated-liquidity pool,
    [_pool_is_viable] answers [True] when the liquidity map is sparse,
    otherwise [False] when there is no tick data, and raises [ValueError]
    when the price is zero and tick data exists; in the remaining case, where
    it is to answer whether a position lies on the side the trade consumes,
    it raises [NameError] whatever the ticks, the price and the direction of
    the trade: the name [get_sqrt_ratio_at_tick] it calls is unbound. *)
Theorem pool_is_viable_concentrated_unbound_name
    (pool : Pool) (b : option Z) (liquidity sqrt_price_x96 tick : Z)
    (tick_data : gmap Z UniswapV3LiquidityAtTick)
    (vector : UniswapPoolSwapVector) :
  isinstance_UniswapV3Pool (pool_class pool) = true →
  let outcome :=
    _pool_is_viable unbound_get_sqrt_ratio_at_tick pool
      (UniswapV3PoolState b liquidity sqrt_price_x96 tick tick_data) vector in
  (sparse_liquidity_map pool = true → outcome = Ok true) ∧
  (sparse_liquidity_map pool = false → tick_data = ∅ → outcome = Ok false) ∧
  (sparse_liquidity_map pool = false → tick_data ≠ ∅ → sqrt_price_x96 = 0 →
   ∃ message, outcome = Raise (ValueError message)) ∧
  (sparse_liquidity_map pool = false → tick_data ≠ ∅ → sqrt_price_x96 ≠ 0 →
   outcome = Raise (NameError "get_sqrt_ratio_at_tick")).
Proof.
  intros Hclass outcome. subst outcome. simpl. rewrite Hclass.
  split; [by intros ->|]. split.
  { intros -> ->. by rewrite bool_decide_eq_true_2. }
  split.
  { intros -> Hne ->. rewrite bool_decide_eq_false_2 by done. simpl.
    by eexists. }
  intros -> Hne Hprice. rewrite bool_decide_eq_false_2 by done.
  destruct (Z.eqb_spec sqrt_price_x96 0) as [|_]; [done|].
  destruct (tick_keys_nonempty tick_data Hne) as (t & l & ->).
  by destruct (zero_for_one vector).
Qed.

End ViabilityProperties.

(** The two-hop cycle of the examples is the one the constructor builds from
    a list of its pools, in the module as it stands.  From an iterator over
    the same pools it builds a cycle without pools: the type check has run
    the iterator to its end. *)
Example two_hop_cycle_constructed :
  __init__ unbound_get_sqrt_ratio_at_tick Examples.WETH
    (Collection [Examples.lp1; Examples.lp2]) "cycle" (Some 500)
  = Ok Examples.two_hop_cycle.
Proof. vm_compute. reflexivity. Qed.

Example cycle_constructed_from_iterator :
  __init__ unbound_get_sqrt_ratio_at_tick Examples.WETH
    (Iterator [Examples.lp1; Examples.lp2]) "cycle" (Some 500)
  = Ok (Examples.cycle_of [] ∅).
Proof. vm_compute. reflexivity. Qed.

Lemma pool_is_viable_constant_product_witness :
  ∃ viable : bool,
    _pool_is_viable Examples.tick_math Examples.lp1
      (UniswapV2PoolState None 1000 1000) Examples.weth_to_dai = Ok viable ∧
    (viable = true ↔
     1000 ≠ 0 ∧ 1000 ≠ 0 ∧
     1 < reserve_drawn_down 1000 1000 Examples.weth_to_dai).
Proof.
  apply (pool_is_viable_constant_product Examples.tick_math Examples.lp1
           (UniswapV2PoolState None 1000 1000) Examples.weth_to_dai 1000 1000);
    reflexivity.
Defined.

Lemma pool_is_viable_concentrated_witness :
  ∃ viable : bool,
    _pool_is_viable Examples.tick_math Examples.lp3 (state Examples.lp3)
      Examples.weth_to_dai = Ok viable ∧
    (viable = true ↔
     position_on_consumed_side Examples.tick_math Examples.weth_to_dai 1000000
       Examples.two_ticks).
Proof.
  refine (proj2 (proj2 (proj2
    (pool_is_viable_concentrated Examples.tick_math Examples.lp3 (Some 100) 5
       1000000 0 Examples.two_ticks Examples.weth_to_dai _ _ _))) _ _ _).
  - reflexivity.
  - intros t1 t2 r1 r2 Hle. unfold Examples.tick_math.
    destruct (_ && _); [|discriminate]. destruct (_ && _); [|discriminate].
    intros [= <-] [= <-]. lia.
  - intros t [info Ht]. unfold Examples.two_ticks in Ht.
    apply lookup_insert_Some in Ht as [[<- _]|[_ Ht]]; [by eexists|].
    apply lookup_singleton_Some in Ht as [<- _]. by eexists.
  - reflexivity.
  - intros H. by apply (f_equal size) in H.
  - lia.
Defined.

(** A pool with positions at ticks -60 and 120 and a price between them: a
    position lies on the side a zero-for-one trade consumes (the tick
    function of the examples puts tick -60 below the price), and the module
    as it stands raises [NameError] where it is to say so. *)
Lemma pool_is_viable_concentrated_unbound_name_witness :
  _pool_is_viable unbound_get_sqrt_ratio_at_tick Examples.lp3
    (state Examples.lp3) Examples.weth_to_dai
  = Raise (NameError "get_sqrt_ratio_at_tick").
Proof.
  refine (proj2 (proj2 (proj2
    (pool_is_viable_concentrated_unbound_name Examples.lp3 (Some 100) 5
       1000000 0 Examples.two_ticks Examples.weth_to_dai _))) _ _ _).
  - reflexivity.
  - reflexivity.
  - intros H. by apply (f_equal size) in H.
  - lia.
Defined.

(** The constructor asks for the viability of every pool, so a cycle through
    that pool cannot be constructed. *)
Example constructor_unbound_name :
  __init__ unbound_get_sqrt_ratio_at_tick Examples.WETH
    (Collection [Examples.lp3; Examples.lp2]) "cycle" (Some 500)
  = Raise (NameError "get_sqrt_ratio_at_tick").
Proof. vm_compute. reflexivity. Qed.

Example position_on_consumed_side_of_lp3 :
  position_on_consumed_side Examples.tick_math Examples.weth_to_dai 1000000
    Examples.two_ticks.
Proof.
  exists (-60), 999940. split; [by eexists|]. split; [reflexivity|].
  simpl. lia.
Qed.

(** ** Methods that leave the attributes alone *)

Section Frame.

Context {S : Type}.

(** [m] ends, with a value or an exception, in the state it started from. *)
Definition read_only {A} (m : M S A) : Prop := ∀ s, (m s).2 = s.

Lemma read_only_ret {A} (a : A) : read_only (mret a : M S A).
Proof. by intros s. Qed.

Lemma read_only_reads {A} (f : S → A) : read_only (reads f).
Proof. by intros s. Qed.

Lemma read_only_raise {A} (e : PyException) : read_only (raise e : M S A).
Proof. by intros s. Qed.

Lemma read_only_lift {A} (r : result A) : read_only (lift r : M S A).
Proof. by intros s. Qed.

Lemma read_only_bind {A B} (m : M S A) (k : A → M S B) :
  read_only m → (∀ a, read_only (k a)) → read_only (m ≫= k).
Proof.
  intros Hm Hk s. unfold mbind, M_bind. specialize (Hm s).
  destruct (m s) as [[a|e] s']; simpl in *; subst s'; [apply Hk|done].
Qed.

Lemma read_only_for_each {A} (l : list A) (body : A → M S unit) :
  (∀ x, read_only (body x)) → read_only (for_each l body).
Proof.
  intros Hbody. induction l as [|x l IH]; simpl.
  - apply read_only_ret.
  - apply read_only_bind; [apply Hbody|intros _; apply IH].
Qed.

(** What a read-only method followed by another returns. *)
Lemma read_only_bind_run {A B} (m : M S A) (k : A → M S B) (s : S) :
  read_only m →
  (m ≫= k) s = match (m s).1 with
               | Ok a => k a s
               | Raise e => (Raise e, s)
               end.
Proof.
  intros Hm. unfold mbind, M_bind. specialize (Hm s).
  destruct (m s) as [[a|e] s']; simpl in *; by subst s'.
Qed.

End Frame.

Create HintDb frame.
#[local] Hint Resolve read_only_ret read_only_reads read_only_raise
  read_only_lift read_only_for_each : frame.

Ltac frame_step :=
  lazymatch goal with
  | |- read_only (_ ≫= _) => apply read_only_bind; [|intros ?]
  | |- read_only (match ?x with _ => _ end) => destruct x
  | |- read_only (for_each _ _) => apply read_only_for_each; intros ?
  | |- read_only _ => solve [auto with frame]
  end.

Section PreCalculationCheckFrame.

Variable get_sqrt_ratio_at_tick : Z -> result Z.

Lemma pool_not_viable_read_only (overrides : gmap string PoolState)
    (pool : Pool) :
  read_only (pool_not_viable get_sqrt_ratio_at_tick overrides pool).
Proof. unfold pool_not_viable. repeat frame_step. Qed.

Lemma check_pools_viable_read_only (overrides : gmap string PoolState) :
  read_only (check_pools_viable get_sqrt_ratio_at_tick overrides).
Proof.
  unfold check_pools_viable. frame_step; [frame_step|]. frame_step.
  frame_step; [apply pool_not_viable_read_only|]. repeat frame_step.
Qed.

Lemma check_rate_of_exchange_read_only (min_rate : Q)
    (overrides : gmap string PoolState) :
  read_only (check_rate_of_exchange min_rate overrides).
Proof. unfold check_rate_of_exchange. repeat frame_step. Qed.

Lemma pre_calculation_check_read_only (min_rate : Q)
    (state_overrides : option (gmap string PoolState)) :
  read_only (_pre_calculation_check get_sqrt_ratio_at_tick min_rate
               state_overrides).
Proof.
  unfold _pre_calculation_check. frame_step.
  - apply check_pools_viable_read_only.
  - apply check_rate_of_exchange_read_only.
Qed.

(** C10: whatever the minimum rate and the overrides, and whether it returns
    or raises, [_pre_calculation_check] ends with the attributes of the cycle
    it started with: pools, swap vectors, viability flags and maximum input
    are those before the call. *)
Theorem pre_calculation_check_frame (min_rate_of_exchange : Q)
    (state_overrides : option (gmap string PoolState)) (self : UniswapLpCycle) :
  let after :=
    (_pre_calculation_check get_sqrt_ratio_at_tick min_rate_of_exchange
       state_overrides self).2 in
  after = self ∧
  _pool_viability after = _pool_viability self ∧
  swap_pools after = swap_pools self ∧
  _swap_vectors after = _swap_vectors self ∧
  max_input after = max_input self.
Proof.
  intros after.
  assert (Hsame : after = self) by apply pre_calculation_check_read_only.
  by rewrite Hsame.
Qed.

End PreCalculationCheckFrame.

(** [notify] is written to store the viability flag of the publishing pool,
    and does not reach that line: the class pattern of its [case] names
    [PoolStateMessage], which the module leaves unbound. *)
Example notify_unbound_name :
  notify unbound_get_sqrt_ratio_at_tick Examples.lp2
    (UniswapV2PoolState (Some 101) 0 950) Examples.two_hop_cycle
  = (Raise (NameError "PoolStateMessage"), Examples.two_hop_cycle).
Proof. reflexivity. Qed.

(** ** The rate-of-exchange gate *)

Section RateOfExchange.

Variable get_sqrt_ratio_at_tick : Z -> result Z.

Lemma inject_Z_nonzero (z : Z) : z ≠ 0 → ¬ (inject_Z z == 0)%Q.
Proof. intros Hz E. unfold Qeq in E. simpl in E. lia. Qed.

Lemma Q192_power : Q192 = 2 ^ 192.
Proof. reflexivity. Qed.

Lemma math_prod_snoc (l : list Z) (x : Z) :
  math_prod (l ++ [x]) = math_prod l * x.
Proof. unfold math_prod. by rewrite fold_left_app. Qed.

Lemma zip_strict_same_length {A B} (a : list A) (b : list B) :
  length a = length b → (zip_strict a b).2 = false.
Proof.
  revert b. induction a as [|x a IH]; intros [|y b] Hlen; simplify_eq/=; [done|].
  specialize (IH b Hlen). by destruct (zip_strict a b).
Qed.

(** [Fraction] builds the quotient; the comparison of fractions is the order
    of the rationals. *)
Lemma Fraction_value (n d : Z) :
  d ≠ 0 → ∃ q, Fraction n d = Ok q ∧ (q == inject_Z n / inject_Z d)%Q.
Proof.
  intros Hd. unfold Fraction. destruct (Z.eqb_spec d 0) as [|_]; [done|].
  destruct (Z.ltb_spec 0 d) as [Hpos|Hneg]; eexists; (split; [reflexivity|]);
    rewrite Qred_correct, Qmake_Qdiv.
  - by rewrite Z2Pos.id.
  - rewrite Z2Pos.id by lia. rewrite !inject_Z_opp. field.
    by apply inject_Z_nonzero.
Qed.

Lemma Fraction_lt_spec (a b : Q) : Fraction_lt a b = true ↔ (a < b)%Q.
Proof.
  unfold Fraction_lt, Qlt, numerator, denominator. rewrite Z.ltb_lt.
  by rewrite (Z.mul_comm (Zpos (Qden a)) (Qnum b)).
Qed.

Lemma one_minus_fee (f : Q) :
  (inject_Z (denominator f - numerator f) / inject_Z (denominator f) == 1 - f)%Q.
Proof.
  unfold denominator, numerator. destruct f as [n d]. simpl.
  rewrite (Qmake_Qdiv n d). unfold Z.sub. rewrite inject_Z_plus, inject_Z_opp.
  field. by apply inject_Z_nonzero.
Qed.

(** One hop: the two integers the code appends are the terms of the rate of
    the specification. *)
Lemma exchange_rate_terms_priced (pool : Pool) (st : PoolState)
    (vector : UniswapPoolSwapVector) :
  hop_priced pool st vector →
  ∃ n d, exchange_rate_terms pool st vector = Ok (n, d) ∧ d ≠ 0 ∧
         (inject_Z n / inject_Z d == hop_rate pool st vector)%Q.
Proof.
  unfold hop_priced, exchange_rate_terms, hop_rate, denominator.
  destruct st as [b r0 r1|b r0 r1|b l p t td]; intros [-> Hin];
    destruct (zero_for_one vector); do 2 eexists;
    (split; [reflexivity|]); (split; [|try reflexivity]);
    rewrite ?Q192_power; try lia.
Qed.

Lemma hop_rate_factors (pool : Pool) (st : PoolState)
    (vector : UniswapPoolSwapVector) :
  hop_priced pool st vector →
  (hop_rate pool st vector
   == hop_price st vector * (1 - hop_fee pool st vector))%Q.
Proof.
  assert (Hmillion : ¬ (inject_Z 1000000 == 0)%Q) by done.
  assert (Hpow : ¬ (inject_Z (2 ^ 192) == 0)%Q) by done.
  unfold hop_priced, hop_rate, hop_price, hop_fee.
  destruct st as [b r0 r1|b r0 r1|b l p t td]; intros [_ Hin];
    destruct (zero_for_one vector).
  1-4: rewrite <- one_minus_fee.
  all: rewrite ?inject_Z_mult.
  all: unfold Z.sub; rewrite ?inject_Z_plus, ?inject_Z_opp.
  all: set (m := inject_Z 1000000) in *; set (w := inject_Z (2 ^ 192)) in *.
  all: field.
  all: repeat split; try (apply inject_Z_nonzero; first [done|by auto]);
    try done.
Qed.

Lemma fee_loss_below_one (p f : Q) :
  (0 <= p)%Q → (p <= 1)%Q → (f < 1)%Q → (p * f < 1)%Q.
Proof.
  intros Hp0 Hp1 Hf. destruct (Qlt_le_dec f 0) as [Hneg|Hpos].
  - assert (H : (0 <= p * (- f))%Q) by (apply Qmult_le_0_compat; lra).
    assert (E : (p * (- f) == - (p * f))%Q) by ring. lra.
  - assert (H : (p * f <= 1 * f)%Q) by (by apply Qmult_le_compat_r). lra.
Qed.

(** The loop of the check: under the accumulated lists, the products grow by
    the terms of the hops. *)
Lemma exchange_rate_loop_spec (overrides : gmap string PoolState)
    (l : list (Pool * UniswapPoolSwapVector)) (nums dens : list Z) :
  Forall (λ '(pool, v), hop_priced pool (state_in_effect overrides pool) v) l →
  ∃ nums' dens' n d,
    exchange_rate_loop overrides l nums dens = Ok (nums', dens') ∧
    math_prod nums' = math_prod nums * n ∧
    math_prod dens' = math_prod dens * d ∧ d ≠ 0 ∧
    (inject_Z n / inject_Z d ==
     Qproduct ((λ '(pool, v), hop_rate pool (state_in_effect overrides pool) v)
                 <$> l))%Q.
Proof.
  revert nums dens. induction l as [|[pool v] l IH]; intros nums dens Hall.
  - exists nums, dens, 1, 1. simpl. repeat split; lia.
  - apply Forall_cons in Hall as [Hhop Hall].
    destruct (exchange_rate_terms_priced _ _ _ Hhop) as (n & d & Ht & Hd & Hq).
    destruct (IH (nums ++ [n]) (dens ++ [d]) Hall)
      as (nums' & dens' & n' & d' & Hloop & Hn & Hd' & Hd0 & Hq').
    exists nums', dens', (n * n'), (d * d'). simpl. rewrite Ht. simpl.
    rewrite Hloop, Hn, Hd', !math_prod_snoc. repeat split; try lia.
    rewrite <- Hq, <- Hq', !inject_Z_mult. field.
    split; by apply inject_Z_nonzero.
Qed.

Lemma hops_products (self : UniswapLpCycle) (overrides : gmap string PoolState) :
  Forall (λ '(pool, st, vector), hop_priced pool st vector)
    (hops self overrides) →
  (net_rate self overrides
   == price_product self overrides * fee_factor_product self overrides)%Q.
Proof.
  unfold net_rate, price_product, fee_factor_product.
  induction (hops self overrides) as [|[[pool st] v] l IH]; intros Hall.
  - done.
  - apply Forall_cons in Hall as [Hhop Hall]. specialize (IH Hall).
    rewrite !fmap_cons. unfold Qproduct in *. cbn [fold_right].
    rewrite (hop_rate_factors _ _ _ Hhop), IH. ring.
Qed.

(** C1 (amended): once every pool has passed the viability gate and every hop
    can be priced, [_pre_calculation_check] builds the exact product of the
    hop rates and raises [RateOfExchangeBelowMinimum] exactly when that
    product is below the minimum; with a minimum of 1, a cycle whose fee
    factors multiply to less than 1 is rejected whenever its prices before
    fees multiply to at most 1. *)
Theorem pre_calculation_check_rate (min_rate_of_exchange : Q)
    (state_overrides : option (gmap string PoolState)) (self : UniswapLpCycle) :
  let overrides := default ∅ state_overrides in
  (check_pools_viable get_sqrt_ratio_at_tick overrides self).1 = Ok tt →
  length (swap_pools self) = length (_swap_vectors self) →
  Forall (λ '(pool, st, vector), hop_priced pool st vector)
    (hops self overrides) →
  ∃ rate : Q,
    (rate == net_rate self overrides)%Q ∧
    (_pre_calculation_check get_sqrt_ratio_at_tick min_rate_of_exchange
       state_overrides self).1
    = (if Fraction_lt rate min_rate_of_exchange
       then Raise (RateOfExchangeBelowMinimum rate) else Ok tt) ∧
    (Fraction_lt rate min_rate_of_exchange = true
     ↔ (net_rate self overrides < min_rate_of_exchange)%Q) ∧
    ((min_rate_of_exchange == 1)%Q →
     (fee_factor_product self overrides < 1)%Q →
     (0 <= price_product self overrides)%Q →
     (price_product self overrides <= 1)%Q →
     Fraction_lt rate min_rate_of_exchange = true).
Proof.
  intros overrides Hviable Hlen Hhops.
  assert (Hfactors := hops_products _ _ Hhops).
  unfold _pre_calculation_check. fold overrides.
  rewrite read_only_bind_run by apply check_pools_viable_read_only.
  rewrite Hviable. unfold check_rate_of_exchange, net_rate, hops in *.
  unfold mbind at 1 2, M_bind, reads. simpl.
  pose proof (zip_strict_same_length _ _ Hlen) as Hbad.
  destruct (zip_strict (swap_pools self) (_swap_vectors self)) as [pairs bad].
  simpl in Hbad, Hhops, Hfactors |- *. subst bad.
  rewrite Forall_fmap in Hhops.
  destruct (exchange_rate_loop_spec overrides pairs [] [])
    as (nums & dens & n & d & Hloop & Hn & Hd & Hd0 & Hq).
  { eapply Forall_impl; [exact Hhops|]. by intros [pool v]. }
  unfold mbind, M_bind, lift. simpl. rewrite Hloop. simpl.
  change (math_prod []) with 1 in Hn, Hd. rewrite Hn, Hd, !Z.mul_1_l.
  destruct (Fraction_value n d Hd0) as (rate & -> & Hrate).
  assert (Hnet : (rate ==
                  Qproduct ((λ '(pool, st, vector), hop_rate pool st vector) <$>
                    ((λ '(pool, vector),
                       (pool, state_in_effect overrides pool, vector)) <$>
                     pairs)))%Q).
  { rewrite Hrate, Hq, <- list_fmap_compose.
    erewrite list_fmap_ext; [reflexivity|]. by intros i [pool v]. }
  exists rate. split; [exact Hnet|]. split.
  { unfold raise. by destruct (Fraction_lt rate min_rate_of_exchange). }
  rewrite Fraction_lt_spec, Hnet. split; [done|].
  intros Hmin Hfee Hp0 Hp1. rewrite Hmin, Hfactors.
  by apply fee_loss_below_one.
Qed.

End RateOfExchange.

(** C1, as stated, fails on the two-hop scenario of the specification: the
    fee factors multiply to less than 1, yet the check with the default minimum
    of 1 passes, because the reserves give a price above the fee loss. *)
Lemma pre_calculation_check_fee_loss_counterexample :
  (fee_factor_product Examples.two_hop_cycle ∅ < 1)%Q ∧
  (_pre_calculation_check Examples.tick_math 1%Q None
     Examples.two_hop_cycle).1 = Ok tt.
Proof. split; vm_compute; reflexivity. Qed.

(** With equal reserves in both pools the prices multiply to 1 and the fee
    loss alone rejects the cycle. *)
Example pure_fee_loss_rejected :
  (_pre_calculation_check Examples.tick_math 1%Q
     (Some {[ "0xAAA2" := UniswapV2PoolState (Some 101) 1000 1000 ]})
     Examples.two_hop_cycle).1
  = Raise (RateOfExchangeBelowMinimum (994009 # 1000000)).
Proof. vm_compute. reflexivity. Qed.

Lemma pre_calculation_check_rate_witness :
  ∃ rate : Q,
    (rate == net_rate Examples.two_hop_cycle ∅)%Q ∧
    (_pre_calculation_check Examples.tick_math 1%Q None
       Examples.two_hop_cycle).1
    = (if Fraction_lt rate 1%Q
       then Raise (RateOfExchangeBelowMinimum rate) else Ok tt) ∧
    (Fraction_lt rate 1%Q = true
     ↔ (net_rate Examples.two_hop_cycle ∅ < 1)%Q) ∧
    ((1 == 1)%Q →
     (fee_factor_product Examples.two_hop_cycle ∅ < 1)%Q →
     (0 <= price_product Examples.two_hop_cycle ∅)%Q →
     (price_product Examples.two_hop_cycle ∅ <= 1)%Q →
     Fraction_lt rate 1%Q = true).
Proof.
  apply (pre_calculation_check_rate Examples.tick_math 1%Q None
           Examples.two_hop_cycle).
  - vm_compute. reflexivity.
  - reflexivity.
  - repeat constructor; simpl; lia.
Defined.


(** ** The profit function probed by the optimizer *)

Section ProfitFunction.

Variable calculate_tokens_out_from_tokens_in :
  Pool -> Erc20Token -> Z -> option PoolState -> result Z.
Variable float : Type.
Variable int_of_float : float -> Z.
Variable float_of_int : Z -> float.
Variable float_neg : float -> float.

#[local] Abbreviation hop_swap := (hop_swap calculate_tokens_out_from_tokens_in).
#[local] Abbreviation arb_profit_loop :=
  (arb_profit_loop calculate_tokens_out_from_tokens_in).
#[local] Abbreviation arb_profit :=
  (arb_profit calculate_tokens_out_from_tokens_in float int_of_float
     float_of_int float_neg).

Lemma arb_profit_loop_chain (pool_states : gmap string PoolState)
    (l : list (Pool * UniswapPoolSwapVector)) (first : bool) (x out : Z) :
  arb_profit_loop pool_states l false first x out
  = match l with
    | [] => Ok out
    | _ => chain (hop_swap pool_states <$> l) (if first then x else out)
    end.
Proof.
  revert first out. induction l as [|hop l IH]; intros first out; [done|].
  simpl. destruct (hop_swap pool_states hop _) as [out'|e]; [|done].
  simpl. rewrite IH. by destruct l.
Qed.

Lemma arb_profit_loop_whole_cycle (pool_states : gmap string PoolState)
    (l : list (Pool * UniswapPoolSwapVector)) (x : Z) :
  arb_profit_loop pool_states l false true x 0
  = whole_cycle_output (hop_swap pool_states <$> l) x.
Proof. rewrite arb_profit_loop_chain. by destruct l. Qed.

(** A chain whose hops raise caught faults only ends in a value or in a
    caught fault. *)
Lemma chain_faults (fs : list (Z → result Z)) (q : Z) (e : PyException) :
  (∀ f q' e', f ∈ fs → f q' = Raise e' →
              is_EVMRevert_or_LiquidityPoolError e' = true) →
  chain fs q = Raise e → is_EVMRevert_or_LiquidityPoolError e = true.
Proof.
  revert q. induction fs as [|f fs IH]; intros q Hfs; simpl; [done|].
  destruct (f q) as [out|e'] eqn:Hf; simpl.
  - apply IH. intros g q' e'' Hg. apply Hfs. by right.
  - intros [= <-]. eapply Hfs; [by left|exact Hf].
Qed.

(** The fault of a hop, fed what the hops before it put out, is the fault of
    the chain. *)
Lemma chain_raise_at (fs : list (Z → result Z)) (i : nat) (f : Z → result Z)
    (q0 q : Z) (e : PyException) :
  fs !! i = Some f → chain (take i fs) q0 = Ok q → f q = Raise e →
  chain fs q0 = Raise e.
Proof.
  revert i q0. induction fs as [|g fs IH]; intros [|i] q0; simpl; try done.
  - by intros [= ->] [= ->] ->.
  - intros Hf. destruct (g q0) as [out|]; [|done]. simpl. by apply IH.
Qed.

(** C2: [arb_profit] rounds [x] down to an integer and feeds each hop the
    output of the hop before it; when a hop, fed that way, raises
    [EVMRevertError] or [LiquidityPoolError], the output of the cycle is taken
    to be zero and the negated profit is returned all the same, while any
    other exception of a hop propagates; so, on a cycle whose hops raise no
    exception but those two, the negated profit is defined for every [x]. *)
Theorem arb_profit_defined (self : UniswapLpCycle)
    (pool_states : gmap string PoolState) (x : float) :
  length (swap_pools self) = length (_swap_vectors self) →
  let quantity := int_of_float x in
  let hop_functions :=
    hop_swap pool_states <$> (zip_strict (swap_pools self) (_swap_vectors self)).1 in
  let with_zero_output := Ok (float_neg (float_of_int (0 - quantity))) in
  (∀ out, whole_cycle_output hop_functions quantity = Ok out →
          arb_profit self pool_states x
          = Ok (float_neg (float_of_int (out - quantity)))) ∧
  (∀ i f q, hop_functions !! i = Some f →
            chain (take i hop_functions) quantity = Ok q →
     (f q = Raise EVMRevertError →
      arb_profit self pool_states x = with_zero_output) ∧
     (∀ message, f q = Raise (LiquidityPoolError message) →
                 arb_profit self pool_states x = with_zero_output) ∧
     (∀ e, f q = Raise e → e ≠ EVMRevertError →
           (∀ message, e ≠ LiquidityPoolError message) →
           arb_profit self pool_states x = Raise e)) ∧
  ((∀ f q e, f ∈ hop_functions → f q = Raise e →
             e = EVMRevertError ∨ ∃ message, e = LiquidityPoolError message) →
   ∃ y, arb_profit self pool_states x = Ok y).
Proof.
  intros Hlen quantity hop_functions with_zero_output.
  subst hop_functions with_zero_output.
  unfold arb_profit. fold quantity.
  pose proof (zip_strict_same_length _ _ Hlen) as Hbad.
  destruct (zip_strict (swap_pools self) (_swap_vectors self)) as [pairs bad].
  simpl in Hbad |- *. subst bad. rewrite arb_profit_loop_whole_cycle.
  split; [by intros out ->|]. split.
  - intros i f q Hf Hchain.
    assert (Hraise : ∀ e, f q = Raise e →
      whole_cycle_output (hop_swap pool_states <$> pairs) quantity = Raise e).
    { intros e He. unfold whole_cycle_output.
      destruct (hop_swap pool_states <$> pairs) as [|g fs] eqn:Hfs; [done|].
      by eapply chain_raise_at. }
    split; [by intros ->%Hraise|]. split; [by intros message ->%Hraise|].
    intros e ->%Hraise Hrevert Hliquidity.
    destruct e; simpl; try done. by destruct (Hliquidity message).
  - intros Hfaults.
    destruct (whole_cycle_output _ quantity) as [out|e] eqn:Hout; simpl;
      [by eexists|].
    assert (Hcaught : is_EVMRevert_or_LiquidityPoolError e = true).
    { unfold whole_cycle_output in Hout.
      destruct (hop_swap pool_states <$> pairs) as [|f fs] eqn:Hfs; [done|].
      eapply chain_faults; [|exact Hout].
      intros g q e' Hg Hq. by destruct (Hfaults g q e' Hg Hq) as [->|[m ->]]. }
    rewrite Hcaught. by eexists.
Qed.

End ProfitFunction.

(** At 0.5 the input of the two-hop cycle is 0 and its first pool raises
    [LiquidityPoolError]: the profit function returns, with an output of
    zero. *)
Lemma arb_profit_defined_witness :
  arb_profit Examples.swap_adapter Q Examples.int_of_Q inject_Z Qopp
    Examples.two_hop_cycle
    (pool_states_of (swap_pools Examples.two_hop_cycle) None) (1 # 2)
  = Ok (- inject_Z (0 - Examples.int_of_Q (1 # 2)))%Q.
Proof.
  pose proof (arb_profit_defined Examples.swap_adapter Q Examples.int_of_Q
                inject_Z Qopp Examples.two_hop_cycle
                (pool_states_of (swap_pools Examples.two_hop_cycle) None)
                (1 # 2) eq_refl) as H.
  destruct H as (_ & Hfault & _).
  destruct (Hfault 0%nat
              (hop_swap Examples.swap_adapter
                 (pool_states_of (swap_pools Examples.two_hop_cycle) None)
                 (Examples.lp1, Examples.weth_to_dai))
              0 eq_refl eq_refl) as (_ & Hliquidity & _).
  exact (Hliquidity "zero input" eq_refl).
Defined.

(** The profit function of the two-hop scenario: at 30.9 the input is 30 and
    the cycle returns 31; at 0.5 the input is 0, the first hop faults, and the
    output counts as zero. *)
Example arb_profit_two_hop :
  arb_profit Examples.swap_adapter Q Examples.int_of_Q inject_Z Qopp
    Examples.two_hop_cycle
    (pool_states_of (swap_pools Examples.two_hop_cycle) None) (309 # 10)
  = Ok (- inject_Z (31 - 30))%Q ∧
  arb_profit Examples.swap_adapter Q Examples.int_of_Q inject_Z Qopp
    Examples.two_hop_cycle
    (pool_states_of (swap_pools Examples.two_hop_cycle) None) (1 # 2)
  = Ok (- inject_Z (0 - 0))%Q.
Proof. split; vm_compute; reflexivity. Qed.

(** ** The state block of a calculation *)

Section StateBlock.

Lemma states_by_address_snoc (pools : list Pool) (pool : Pool) :
  states_by_address (pools ++ [pool])
  = <[address pool := state pool]> (states_by_address pools).
Proof. unfold states_by_address. by rewrite fold_left_app. Qed.

Lemma states_by_address_lookup (pools : list Pool) (pool : Pool) :
  (∀ p q, p ∈ pools → q ∈ pools → address p = address q → state p = state q) →
  pool ∈ pools →
  states_by_address pools !! address pool = Some (state pool).
Proof.
  induction pools as [|last pools IH] using rev_ind; intros Hsame Hin.
  - by apply elem_of_nil in Hin.
  - rewrite states_by_address_snoc.
    destruct (decide (address last = address pool)) as [Heq|Hne].
    + rewrite Heq, lookup_insert_eq. f_equal. apply Hsame; [|done|done].
      apply elem_of_app. right. by left.
    + rewrite lookup_insert_ne by done. apply IH.
      * intros p q Hp Hq. apply Hsame; apply elem_of_app; by left.
      * apply elem_of_app in Hin as [Hin|Hin]; [done|].
        apply list_elem_of_singleton in Hin. by subst.
Qed.

Lemma states_by_address_from_pool (pools : list Pool) (a : string)
    (st : PoolState) :
  states_by_address pools !! a = Some st →
  ∃ pool, pool ∈ pools ∧ address pool = a ∧ state pool = st.
Proof.
  induction pools as [|last pools IH] using rev_ind; [done|].
  rewrite states_by_address_snoc.
  destruct (decide (address last = a)) as [<-|Hne].
  - rewrite lookup_insert_eq. intros [= <-]. exists last.
    split; [|done]. apply elem_of_app. right. by left.
  - rewrite lookup_insert_ne by done. intros (pool & Hin & Hpool)%IH.
    exists pool. split; [|done]. apply elem_of_app. by left.
Qed.

Lemma newest_state_block_loop_none (states : list PoolState) (acc : option Z) :
  (∃ st, st ∈ states ∧ block st = None) →
  newest_state_block_loop states acc = None.
Proof.
  revert acc. induction states as [|st' states IH]; intros acc (st & Hin & Hb).
  - by apply elem_of_nil in Hin.
  - simpl. apply elem_of_cons in Hin as [<-|Hin]; [by rewrite Hb|].
    destruct (block st'); [|done]. apply IH. eauto.
Qed.

Lemma newest_state_block_loop_max (states : list PoolState) (acc : option Z) :
  (∀ st, st ∈ states → is_Some (block st)) →
  states ≠ [] ∨ is_Some acc →
  ∃ m, newest_state_block_loop states acc = Some m ∧
       (acc = Some m ∨ Some m ∈ block <$> states) ∧
       (∀ b, acc = Some b → b ≤ m) ∧
       (∀ b, Some b ∈ block <$> states → b ≤ m).
Proof.
  revert acc. induction states as [|st states IH]; intros acc Hall Hne.
  - destruct Hne as [|[m ->]]; [done|]. exists m. simpl.
    repeat split; [by left|by intros b [= ->]|].
    intros b Hb. by apply elem_of_nil in Hb.
  - cbn [newest_state_block_loop].
    destruct (Hall st) as [b Hb]; [by left|]. rewrite Hb.
    destruct (IH (Some (match acc with Some n => n `max` b | None => b end)))
      as (m & -> & Hfrom & Hacc & Hrest); [|by right|].
    { intros st' Hst'. apply Hall. by right. }
    exists m. split; [done|]. rewrite fmap_cons, Hb.
    specialize (Hacc _ eq_refl). repeat split.
    + destruct Hfrom as [[= <-]|Hin]; [|by right; right].
      destruct acc as [n|]; [|by right; left].
      destruct (Z.max_spec n b) as [[_ ->]|[_ ->]]; [by right; left|by left].
    + intros n ->. lia.
    + intros n Hn. apply elem_of_cons in Hn as [[= ->]|Hn]; [|by apply Hrest].
      destruct acc; lia.
Qed.

Variable get_sqrt_ratio_at_tick : Z -> result Z.
Variable calculate_tokens_out_from_tokens_in :
  Pool -> Erc20Token -> Z -> option PoolState -> result Z.
Variable float : Type.
Variable int_of_float : float -> Z.
Variable float_of_int : Z -> float.
Variable float_neg : float -> float.
Variable minimize_scalar : (float -> result float) -> Z -> result (float * float).
Variables MIN_SQRT_RATIO MAX_SQRT_RATIO : Z.

#[local] Abbreviation run_calculate :=
  (_calculate calculate_tokens_out_from_tokens_in float int_of_float
     float_of_int float_neg minimize_scalar MIN_SQRT_RATIO MAX_SQRT_RATIO).

(** The dictionary of states a calculation uses holds, at each address, the
    override when there is one and otherwise the cached state of the pool at
    that address. *)
Lemma pool_states_of_lookup (pools : list Pool)
    (overrides : gmap string PoolState) (a : string) :
  pool_states_of pools (Some overrides) !! a
  = match overrides !! a with
    | Some st => Some st
    | None => states_by_address pools !! a
    end.
Proof.
  unfold pool_states_of. destruct (overrides !! a) as [st|] eqn:E.
  - by apply lookup_union_Some_l.
  - by rewrite lookup_union_r.
Qed.

(** The values of the dictionary a calculation runs on are the contributing
    states together with the overrides for addresses outside the cycle. *)
Lemma pool_states_values (self : UniswapLpCycle)
    (state_overrides : option (gmap string PoolState)) (st : PoolState) :
  (∀ p q, p ∈ swap_pools self → q ∈ swap_pools self →
          address p = address q → state p = state q) →
  st ∈ (map_to_list (pool_states_of (swap_pools self) state_overrides)).*2 ↔
  st ∈ contributing_states self state_overrides
         ++ stray_overrides self state_overrides.
Proof.
  intros Hsame. unfold contributing_states, stray_overrides.
  rewrite elem_of_app, !list_elem_of_fmap. split.
  - intros [[a st'] [-> Hin]]. apply elem_of_map_to_list in Hin. simpl.
    assert (Hcached : states_by_address (swap_pools self) !! a = Some st' →
      ∃ pool, pool ∈ swap_pools self ∧ address pool = a ∧ state pool = st').
    { apply states_by_address_from_pool. }
    destruct state_overrides as [overrides|]; simpl.
    + rewrite pool_states_of_lookup in Hin.
      destruct (overrides !! a) as [st|] eqn:Hov.
      * injection Hin as ->.
        destruct (decide (a ∈ address <$> swap_pools self)) as [Hpool|Hstray].
        -- apply list_elem_of_fmap in Hpool as (pool & -> & Hpool).
           left. exists pool. by rewrite Hov.
        -- right. exists (a, st'). split; [done|].
           apply elem_of_map_to_list. by apply map_lookup_filter_Some.
      * destruct (Hcached Hin) as (pool & Hpool & <- & <-).
        left. exists pool. by rewrite Hov.
    + destruct (Hcached Hin) as (pool & Hpool & <- & <-). left. by exists pool.
  - intros [(pool & -> & Hpool)|[[a st'] [-> Hin]]].
    + pose proof (states_by_address_lookup _ _ Hsame Hpool) as Hcached.
      exists (address pool,
              default (state pool)
                (state_overrides ≫= λ overrides, overrides !! address pool)).
      split; [done|]. apply elem_of_map_to_list.
      destruct state_overrides as [overrides|]; [|done].
      rewrite pool_states_of_lookup. cbn [mbind option_bind].
      by destruct (overrides !! address pool).
    + apply elem_of_map_to_list, map_lookup_filter_Some in Hin as [Hin _].
      exists (a, st'). split; [done|]. apply elem_of_map_to_list.
      destruct state_overrides as [overrides|]; simpl in Hin; [|done].
      by rewrite pool_states_of_lookup, Hin.
Qed.

(** C4: a calculation that returns reports, as its state block, nothing when
    one of the states it was run on has no block number, and otherwise the
    largest of their block numbers; the states it was run on are the
    contributing pool states (the override or else the cached state of every
    pool of the cycle) and, with them, every override handed in for an address
    at which the cycle has no pool.  It returns whenever the minimizer and
    the replay of the chosen input do. *)
Theorem calculate_state_block (self : UniswapLpCycle)
    (state_overrides : option (gmap string PoolState)) :
  (∀ p q, p ∈ swap_pools self → q ∈ swap_pools self →
          address p = address q → state p = state q) →
  let states :=
    contributing_states self state_overrides
      ++ stray_overrides self state_overrides in
  let pool_states := pool_states_of (swap_pools self) state_overrides in
  (∀ opt_x opt_fun amounts,
     minimize_scalar
       (arb_profit calculate_tokens_out_from_tokens_in float int_of_float
          float_of_int float_neg self pool_states) (max_input self)
     = Ok (opt_x, opt_fun) →
     _build_swap_amounts calculate_tokens_out_from_tokens_in MIN_SQRT_RATIO
       MAX_SQRT_RATIO self (int_of_float opt_x) pool_states = Ok amounts →
     ∃ res, run_calculate self state_overrides = Ok res) ∧
  (∀ res, run_calculate self state_overrides = Ok res →
     ((∃ st, st ∈ states ∧ block st = None) →
      ArbitrageCalculationResult.state_block res = None) ∧
     ((∀ st, st ∈ states → is_Some (block st)) → states ≠ [] →
      ∃ m, ArbitrageCalculationResult.state_block res = Some m ∧
           Some m ∈ block <$> states ∧
           ∀ b, Some b ∈ block <$> states → b ≤ m)).
Proof.
  intros Hsame states pool_states. unfold _calculate. fold pool_states.
  split.
  { intros opt_x opt_fun amounts -> . simpl. intros ->. simpl. by eexists. }
  intros res Hres.
  destruct (minimize_scalar _ _) as [[opt_x opt_fun]|]; [|done].
  simpl in Hres. destruct (_build_swap_amounts _ _ _ _ _ _) as [amounts|];
    [|done].
  injection Hres as <-. simpl.
  pose proof (λ st, pool_states_values self state_overrides st Hsame) as Hvalues.
  fold states pool_states in Hvalues.
  assert (Hblocks : ∀ b : option Z,
    b ∈ block <$> (map_to_list pool_states).*2 ↔ b ∈ block <$> states).
  { intros b. rewrite !list_elem_of_fmap.
    split; intros (st & -> & Hst); exists st; (split; [done|]);
      by apply Hvalues. }
  unfold newest_state_block. split.
  - intros (st & Hst & Hnone). apply newest_state_block_loop_none.
    exists st. split; [by apply Hvalues|done].
  - intros Hall Hne.
    destruct (newest_state_block_loop_max (map_to_list pool_states).*2 None)
      as (m & -> & [?|Hin] & _ & Hmax); [| |done|].
    + intros st Hst. by apply Hall, Hvalues.
    + left. intros Hnil. destruct states as [|st states'] eqn:Hstates; [done|].
      assert (Hst : st ∈ (map_to_list pool_states).*2)
        by (apply Hvalues; by left).
      rewrite Hnil in Hst. by apply elem_of_nil in Hst.
    + exists m. split; [done|]. split; [by apply Hblocks|].
      intros b Hb. by apply Hmax, Hblocks.
Qed.

End StateBlock.

(** Both pools of the two-hop cycle are at block 100 and no override is given
    for either; an override without a block number for an address at which
    the cycle has no pool leaves the result without a state block. *)
Lemma calculate_state_block_stray_override_counterexample :
  ∃ res,
    _calculate Examples.swap_adapter Q Examples.int_of_Q inject_Z Qopp
      Examples.probe_once 4295128739
      1461446703485210103287273052203988822378723970342
      Examples.two_hop_cycle
      (Some {[ "0xFFFF" := UniswapV2PoolState None 1 1 ]})
    = Ok res ∧
    contributing_states Examples.two_hop_cycle
      (Some {[ "0xFFFF" := UniswapV2PoolState None 1 1 ]})
    = [UniswapV2PoolState (Some 100) 1000 1000;
       UniswapV2PoolState (Some 100) 1050 950] ∧
    ArbitrageCalculationResult.state_block res = None.
Proof. eexists. split; [vm_compute; reflexivity|]. split; reflexivity. Qed.

(** Nor is the state block bounded by the blocks of the contributing states:
    an override at block 900 for such an address carries it to 900. *)
Example unrelated_override_counts :
  newest_state_block
    (pool_states_of [Examples.lp1; Examples.lp2]
       (Some {[ "0xFFFF" := UniswapV2PoolState (Some 900) 1 1 ]}))
  = Some 900.
Proof. vm_compute. reflexivity. Qed.

(** Two pool objects at one address have one entry in the dictionary, that of
    the later one: the state of the earlier one, here without a block
    number, does not reach the state block. *)
Example pools_at_one_address_share_an_entry :
  newest_state_block
    (pool_states_of
       [{| pool_class := UniswapV2Pool; address := "0xAAA1";
           token0 := Examples.WETH; token1 := Examples.DAI;
           state := UniswapV2PoolState None 1000 1000;
           fee_token0 := Examples.fee_03; fee_token1 := Examples.fee_03;
           fee := 0; sparse_liquidity_map := false |};
        Examples.lp1] None)
  = Some 100.
Proof. vm_compute. reflexivity. Qed.

Lemma two_hop_cycle_pools (p : Pool) :
  p ∈ swap_pools Examples.two_hop_cycle → p = Examples.lp1 ∨ p = Examples.lp2.
Proof.
  intros Hp. apply elem_of_cons in Hp as [->|Hp]; [by left|].
  apply list_elem_of_singleton in Hp as ->. by right.
Qed.

Lemma calculate_state_block_witness :
  ∃ res,
    _calculate Examples.swap_adapter Q Examples.int_of_Q inject_Z Qopp
      Examples.probe_once 4295128739
      1461446703485210103287273052203988822378723970342
      Examples.two_hop_cycle
      (Some {[ "0xAAA2" := UniswapV2PoolState (Some 105) 1050 950;
               "0xFFFF" := UniswapV2PoolState (Some 103) 1 1 ]})
    = Ok res ∧
    ArbitrageCalculationResult.state_block res = Some 105.
Proof.
  pose proof (calculate_state_block Examples.swap_adapter Q Examples.int_of_Q
                inject_Z Qopp Examples.probe_once 4295128739
                1461446703485210103287273052203988822378723970342
                Examples.two_hop_cycle
                (Some {[ "0xAAA2" := UniswapV2PoolState (Some 105) 1050 950;
                         "0xFFFF" := UniswapV2PoolState (Some 103) 1 1 ]}))
    as Hblock.
  destruct Hblock as [Hreturns Hblock].
  { intros p q [->| ->]%two_hop_cycle_pools [->| ->]%two_hop_cycle_pools;
      done. }
  destruct (Hreturns (100 # 1)%Q (10 # 1)%Q
              [UniswapV2PoolSwapAmounts "0xAAA1" (100, 0) (0, 90);
               UniswapV2PoolSwapAmounts "0xAAA2" (0, 90) (90, 0)])
    as [res Hres]; [vm_compute; reflexivity..|].
  exists res. split; [exact Hres|].
  destruct (Hblock res Hres) as [_ Hmax].
  assert (Hstates :
    contributing_states Examples.two_hop_cycle
      (Some {[ "0xAAA2" := UniswapV2PoolState (Some 105) 1050 950;
               "0xFFFF" := UniswapV2PoolState (Some 103) 1 1 ]})
    ++ stray_overrides Examples.two_hop_cycle
      (Some {[ "0xAAA2" := UniswapV2PoolState (Some 105) 1050 950;
               "0xFFFF" := UniswapV2PoolState (Some 103) 1 1 ]})
    = [UniswapV2PoolState (Some 100) 1000 1000;
       UniswapV2PoolState (Some 105) 1050 950;
       UniswapV2PoolState (Some 103) 1 1]) by (vm_compute; reflexivity).
  rewrite Hstates in Hmax.
  destruct Hmax as (m & Hm & Hin & Hle).
  - intros st Hst. rewrite !elem_of_cons, elem_of_nil in Hst.
    destruct Hst as [->|[->|[->|[]]]]; by eexists.
  - done.
  - rewrite Hm. f_equal.
    assert (105 ≤ m) by (apply Hle; by right; left).
    simpl in Hin. rewrite !elem_of_cons, elem_of_nil in Hin.
    destruct Hin as [[= ->]|[[= ->]|[[= ->]|[]]]]; lia.
Defined.

(** ** Dispatch to an executor *)

Section Dispatch.

Variable get_sqrt_ratio_at_tick : Z -> result Z.

Lemma any_sparse_v3_pool_spec (pools : list Pool) :
  any_sparse_v3_pool pools = true ↔
  ∃ pool, pool ∈ pools ∧ isinstance_UniswapV3Pool (pool_class pool) = true ∧
          sparse_liquidity_map pool = true.
Proof.
  unfold any_sparse_v3_pool. rewrite existsb_exists. split.
  - intros (pool & Hin & Hsparse). apply list_elem_of_In in Hin.
    apply list_elem_of_filter in Hin as [Hclass Hin]. by exists pool.
  - intros (pool & Hin & Hclass & Hsparse). exists pool. split; [|done].
    apply list_elem_of_In. by apply list_elem_of_filter.
Qed.

(** C5: with a process pool and a concentrated-liquidity pool whose liquidity
    map is sparse in the path, [calculate_with_pool] raises its refusal
    with nothing handed to the executor and the cycle untouched; with a thread
    pool, or without such a pool, it is the pre-calculation check followed,
    when the check passes, by the submission of the calculation. *)
Theorem calculate_with_pool_refusal (executor : Executor)
    (state_overrides : option (gmap string PoolState))
    (min_rate_of_exchange : Q) (self : UniswapLpCycle)
    (queue : list Submission) :
  let outcome :=
    calculate_with_pool get_sqrt_ratio_at_tick executor state_overrides
      min_rate_of_exchange (self, queue) in
  let sparse_pool_in_path :=
    ∃ pool, pool ∈ swap_pools self ∧
            isinstance_UniswapV3Pool (pool_class pool) = true ∧
            sparse_liquidity_map pool = true in
  (executor = ProcessPoolExecutor → sparse_pool_in_path →
   outcome = (Raise sparse_refusal, (self, queue))) ∧
  (executor = ThreadPoolExecutor ∨ ¬ sparse_pool_in_path →
   outcome
   = match (_pre_calculation_check get_sqrt_ratio_at_tick
              min_rate_of_exchange state_overrides self).1 with
     | Ok _ =>
         let submission := {| submitted_to := executor;
                              submitted_state_overrides := state_overrides |} in
         (Ok submission, (self, queue ++ [submission]))
     | Raise e => (Raise e, (self, queue))
     end).
Proof.
  intros outcome sparse_pool_in_path. subst outcome sparse_pool_in_path.
  unfold calculate_with_pool.
  rewrite read_only_bind_run by apply read_only_reads.
  cbn [reads fst snd]. rewrite <- any_sparse_v3_pool_spec. split.
  - by intros -> ->.
  - intros Hno.
    assert (Hguard :
      (match executor with ProcessPoolExecutor => true | _ => false end
       && any_sparse_v3_pool (swap_pools self)) = false).
    { destruct Hno as [->|Hno]; [done|]. apply andb_false_iff. right.
      by apply not_true_is_false. }
    rewrite Hguard. unfold mbind, M_bind, zoom, run_in_executor, modify.
    cbn [fst snd].
    pose proof (pre_calculation_check_read_only get_sqrt_ratio_at_tick
                  min_rate_of_exchange state_overrides self) as Hframe.
    destruct (_pre_calculation_check _ _ _ self) as [[[]|e] self'];
      simpl in *; by subst self'.
Qed.

End Dispatch.

Lemma calculate_with_pool_refusal_witness :
  calculate_with_pool Examples.tick_math ProcessPoolExecutor None 1%Q
    (Examples.sparse_cycle, [])
  = (Raise sparse_refusal, (Examples.sparse_cycle, [])) ∧
  calculate_with_pool Examples.tick_math ThreadPoolExecutor None 1%Q
    (Examples.two_hop_cycle, [])
  = (Ok {| submitted_to := ThreadPoolExecutor;
           submitted_state_overrides := None |},
     (Examples.two_hop_cycle,
      [{| submitted_to := ThreadPoolExecutor;
          submitted_state_overrides := None |}])).
Proof.
  split.
  - apply (calculate_with_pool_refusal Examples.tick_math ProcessPoolExecutor
             None 1%Q Examples.sparse_cycle []); [reflexivity|].
    exists Examples.lp3_sparse. split; [|by split]. right. by left.
  - etransitivity;
      [apply (calculate_with_pool_refusal Examples.tick_math
                ThreadPoolExecutor None 1%Q Examples.two_hop_cycle []);
       by left|].
    vm_compute. reflexivity.
Defined.

(** ** Payloads *)

Section PayloadProperties.

(** C6 fails on the code: the cycle of the two constant-product pools of the
    scenario, with the swap amounts of an input of 100, gets two payloads, the
    transfer to the first pool and the swap at the second pool; the swap at
    the first pool, which the transfer is to precede, is not emitted. *)
Theorem generate_payloads_first_swap_missing :
  generate_payloads (λ a, Ok a) Examples.two_hop_cycle "0xF00D" 100
    [UniswapV2PoolSwapAmounts "0xAAA1" (100, 0) (0, 90);
     UniswapV2PoolSwapAmounts "0xAAA2" (0, 90) (90, 0)]
  = Ok [("0xC02a", call_transfer "0xAAA1" 100, 0);
        ("0xAAA2", call_swap_v2 90 0 "0xF00D" "", 0)].
Proof. vm_compute. reflexivity. Qed.

(** In general, when the first pool is a constant-product pool the first hop
    yields the transfer alone, so that the payloads are as many as the hops
    and not one more. *)
Lemma generate_payloads_loop_length (self : UniswapLpCycle) (from_address : string) (swap_amount : Z)
    (l : list (Pool * SwapAmount)) (bad : bool) (i : nat)
    (acc payloads : list Payload) :
  generate_payloads_loop self from_address swap_amount l bad i acc
  = Ok payloads →
  length payloads = (length acc + length l)%nat.
Proof.
  revert i acc. induction l as [|[pool amounts] l IH]; intros i acc; simpl.
  - destruct bad; [done|]. intros [= <-]. lia.
  - destruct (payload_of_hop _ _ _ _ _ _) as [payload|]; [|done]. simpl.
    intros H. apply IH in H. rewrite length_app in H. simpl in H. lia.
Qed.

End PayloadProperties.

(** ** Decoding a V3 path *)

Section DecodeProperties.

Import V3Functions.

Variable to_checksum_address : list Byte.byte -> result string.

Lemma int_from_bytes_acc (chunk : list Byte.byte) (acc : Z) :
  fold_left (λ acc b, acc * 256 + Z.of_N (Byte.to_N b)) chunk acc
  = acc * 256 ^ Z.of_nat (length chunk) + big_endian chunk.
Proof.
  revert acc. induction chunk as [|b chunk IH]; intros acc.
  - simpl. lia.
  - cbn [fold_left big_endian length]. rewrite IH, Nat2Z.inj_succ, Z.pow_succ_r by lia.
    lia.
Qed.

Lemma int_from_bytes_big_endian (chunk : list Byte.byte) :
  int_from_bytes chunk = big_endian chunk.
Proof. unfold int_from_bytes. rewrite int_from_bytes_acc. lia. Qed.

(** C8: a path of 43 bytes, two addresses of 20 bytes around a fee of 3
    bytes, decodes (the loop ends after three chunks) into the checksummed
    first address, the fee read as a big-endian unsigned number, and the
    checksummed second address. *)
Theorem decode_v3_path_single_hop (fuel : nat) (path : list Byte.byte) :
  length path = 43%nat →
  (3 ≤ fuel)%nat →
  (∀ chunk, length chunk = 20%nat → ∃ a, to_checksum_address chunk = Ok a) →
  ∃ a1 a2,
    to_checksum_address (take 20 path) = Ok a1 ∧
    to_checksum_address (drop 23 path) = Ok a2 ∧
    decode_v3_path to_checksum_address fuel path
    = Some (Ok [PathAddress a1;
                PathFee (big_endian (take 3 (drop 20 path)));
                PathAddress a2]).
Proof.
  intros Hlen Hfuel Hchecksum.
  destruct (Hchecksum (take 20 path)) as [a1 Ha1].
  { rewrite length_take. lia. }
  destruct (Hchecksum (drop 23 path)) as [a2 Ha2].
  { rewrite length_drop. lia. }
  exists a1, a2. split; [done|]. split; [done|].
  destruct fuel as [|[|[|fuel]]]; [lia..|].
  unfold decode_v3_path, decode_loop, slice. rewrite Hlen.
  cbn [negb Nat.add Nat.eqb]. rewrite drop_0, Ha1. simpl.
  rewrite int_from_bytes_big_endian.
  rewrite (take_ge (drop 23 path)) by (rewrite length_drop; lia).
  by rewrite Ha2.
Qed.

End DecodeProperties.

Lemma decode_v3_path_single_hop_witness :
  ∃ a1 a2,
    (λ chunk, Ok (String.string_of_list_byte chunk))
      (take 20 (replicate 43 Byte.x2a)) = Ok a1 ∧
    (λ chunk, Ok (String.string_of_list_byte chunk))
      (drop 23 (replicate 43 Byte.x2a)) = Ok a2 ∧
    V3Functions.decode_v3_path
      (λ chunk, Ok (String.string_of_list_byte chunk)) 5
      (replicate 43 Byte.x2a)
    = Some (Ok [V3Functions.PathAddress a1;
                V3Functions.PathFee
                  (big_endian (take 3 (drop 20 (replicate 43 Byte.x2a))));
                V3Functions.PathAddress a2]).
Proof.
  apply (decode_v3_path_single_hop
           (λ chunk, Ok (String.string_of_list_byte chunk)) 5
           (replicate 43 Byte.x2a)).
  - reflexivity.
  - lia.
  - intros chunk _. by eexists.
Defined.

(** A fee of 3000 (bytes 00 0b b8) between two addresses. *)
Example decode_v3_path_fee_3000 :
  V3Functions.decode_v3_path (λ chunk, Ok (String.string_of_list_byte chunk)) 3
    (replicate 20 Byte.x41 ++ [Byte.x00; Byte.x0b; Byte.xb8]
       ++ replicate 20 Byte.x42)
  = Some (Ok [V3Functions.PathAddress "AAAAAAAAAAAAAAAAAAAA";
              V3Functions.PathFee 3000;
              V3Functions.PathAddress "BBBBBBBBBBBBBBBBBBBB"]).
Proof. vm_compute. reflexivity. Qed.

(** ** The Balancer adapter *)

Section BalancerProperties.

Import Balancer.

Variable mulUp : Q -> Q -> result Q.
Variable _subtractSwapFeeAmount : Q -> Q -> result Q.
Variable _upscaleArray : list Q -> list Z -> result (list Q).
Variable _upscale : Q -> Z -> result Q.
Variable _calcOutGivenIn : Z -> Z -> Z -> Z -> Z -> result Q.
Variable _downscaleDown : Q -> Z -> result Q.

(** C9: two calls that agree on the token in, its quantity and the token out,
    on pools with the same tokens, balances, fee, weights and scaling factors,
    have the same outcome whatever their [override_state] arguments: the
    calculation reads those attributes of the pool itself and nothing of the
    state handed in. *)
Theorem calculate_tokens_out_ignores_override_state
    (self self' : BalancerV2Pool)
    (token_in : Erc20Token) (token_in_quantity : Z) (token_out : Erc20Token)
    (override_state override_state' : option BalancerV2PoolState) :
  tokens self = tokens self' →
  balances (state self) = balances (state self') →
  fee self = fee self' →
  weights self = weights self' →
  scaling_factors self = scaling_factors self' →
  calculate_tokens_out_from_tokens_in mulUp _subtractSwapFeeAmount
    _upscaleArray _upscale _calcOutGivenIn _downscaleDown self token_in
    token_in_quantity token_out override_state
  = calculate_tokens_out_from_tokens_in mulUp _subtractSwapFeeAmount
      _upscaleArray _upscale _calcOutGivenIn _downscaleDown self' token_in
      token_in_quantity token_out override_state'.
Proof.
  intros Htokens Hbalances Hfee Hweights Hscaling.
  unfold calculate_tokens_out_from_tokens_in.
  by rewrite Htokens, Hbalances, Hfee, Hweights, Hscaling.
Qed.

End BalancerProperties.

Lemma calculate_tokens_out_ignores_override_state_witness :
  Examples.weighted_out (Examples.weighted_pool [1000; 1000])
    (Some {| Balancer.block := None; Balancer.balances := [1000; 5000] |})
  = Examples.weighted_out (Examples.weighted_pool [1000; 1000]) None.
Proof.
  apply (calculate_tokens_out_ignores_override_state _ _ _ _ _ _
           (Examples.weighted_pool [1000; 1000])
           (Examples.weighted_pool [1000; 1000]) Examples.WETH 100
           Examples.DAI); reflexivity.
Defined.

(** The outcome follows the balances of the pool, not those of the state
    handed in. *)
Example weighted_out_reads_own_balances :
  Examples.weighted_out (Examples.weighted_pool [1000; 1000])
    (Some {| Balancer.block := None; Balancer.balances := [1000; 5000] |})
  = Ok 90 ∧
  Examples.weighted_out (Examples.weighted_pool [1000; 5000]) None = Ok 450.
Proof. split; vm_compute; reflexivity. Qed.

(** * Further properties of the code *)

(** ** The constructor *)

Section Constructor.

Variable get_sqrt_ratio_at_tick : Z -> result Z.

Lemma build_swap_vectors_contiguous (current_token : Erc20Token)
    (pools : list Pool) (vectors : list UniswapPoolSwapVector) :
  build_swap_vectors current_token pools = Ok vectors →
  contiguous current_token pools vectors.
Proof.
  revert current_token vectors.
  induction pools as [|pool pools IH]; intros tok vectors; simpl.
  - by intros [= <-].
  - unfold next_swap_vector. repeat case_bool_decide; simpl;
      try discriminate;
      (destruct (build_swap_vectors _ pools) as [vs|] eqn:Hvs; [|done]);
      intros [= <-]; simpl; (split; [done|]); (split; [|by apply IH]); eauto.
Qed.

Lemma contiguous_length (current_token : Erc20Token) (pools : list Pool)
    (vectors : list UniswapPoolSwapVector) :
  contiguous current_token pools vectors → length pools = length vectors.
Proof.
  revert current_token vectors.
  induction pools as [|pool pools IH]; intros tok [|v vectors]; simpl;
    try done.
  intros (_ & _ & H). f_equal. by eapply IH.
Qed.

Lemma zip_strict_pairs {A B} (a : list A) (b : list B) :
  length a = length b → (zip_strict a b).1 = zip a b.
Proof.
  revert b. induction a as [|x a IH]; intros [|y b] Hlen; simplify_eq/=; [done|].
  specialize (IH b Hlen). destruct (zip_strict a b). simpl in *. by f_equal.
Qed.

(** What the dictionary comprehension of the constructor leaves at the
    address of a pool. *)
Lemma build_pool_viability_keys (l : list (Pool * UniswapPoolSwapVector))
    (acc viability : gmap string bool) :
  build_pool_viability get_sqrt_ratio_at_tick l acc = Ok viability →
  (∀ a, is_Some (acc !! a) → is_Some (viability !! a)) ∧
  (∀ pool v, (pool, v) ∈ l → is_Some (viability !! address pool)).
Proof.
  revert acc. induction l as [|[pool v] l IH]; intros acc; simpl.
  - intros [= <-]. split; [done|]. intros pool v H. by apply elem_of_nil in H.
  - destruct (_pool_is_viable _ pool _ v) as [b|]; [|done]. simpl.
    intros H. destruct (IH _ H) as [Hacc Hl]. split.
    + intros a Ha. apply Hacc. rewrite lookup_insert.
      case_decide; [by eexists|done].
    + intros pool' v' Hin. apply elem_of_cons in Hin as [[= -> ->]|Hin].
      * apply Hacc. rewrite lookup_insert_eq. by eexists.
      * by eapply Hl.
Qed.

Lemma build_pool_viability_values (l : list (Pool * UniswapPoolSwapVector))
    (acc viability : gmap string bool) :
  build_pool_viability get_sqrt_ratio_at_tick l acc = Ok viability →
  NoDup (address <$> l.*1) →
  (∀ a, a ∉ address <$> l.*1 → viability !! a = acc !! a) ∧
  (∀ pool v, (pool, v) ∈ l →
     _pool_is_viable get_sqrt_ratio_at_tick pool (state pool) v
     = Ok (default false (viability !! address pool)) ∧
     is_Some (viability !! address pool)).
Proof.
  revert acc. induction l as [|[pool v] l IH]; intros acc; simpl.
  - intros [= <-] _. split; [done|]. intros pool v H. by apply elem_of_nil in H.
  - destruct (_pool_is_viable _ pool _ v) as [b|] eqn:Hb; [|done]. simpl.
    intros H Hnodup. apply NoDup_cons in Hnodup as [Hfresh Hnodup].
    destruct (IH _ H Hnodup) as [Hout Hin]. split.
    + intros a Ha. apply not_elem_of_cons in Ha as [Hne Ha].
      rewrite (Hout a Ha). by rewrite lookup_insert_ne.
    + intros pool' v' Hmem. apply elem_of_cons in Hmem as [[= -> ->]|Hmem].
      * rewrite (Hout _ Hfresh), lookup_insert_eq. simpl. split; [done|].
        by eexists.
      * by apply Hin.
Qed.

(** The pools a constructed cycle holds: those of a collection, and none of
    an iterator, which the type check has run to its end. *)
Lemma init_on_held_pools (input_token0 : Erc20Token)
    (swap_pools0 : Iterable Pool) (id0 : string) (max_input0 : option Z) :
  __init__ get_sqrt_ratio_at_tick input_token0 swap_pools0 id0 max_input0
  = let pools := match swap_pools0 with
                 | Collection items => items
                 | Iterator _ => []
                 end in
    max_input ← match max_input0 with
                | None => Ok (100 * 10 ^ 18)
                | Some m =>
                    if m <=? 0
                    then Raise (DegenbotValueError
                                  "Maximum input must be positive.")
                    else Ok m
                end;
    vectors ← build_swap_vectors input_token0 pools;
    let '(pairs, bad) := zip_strict pools vectors in
    viability ← build_pool_viability get_sqrt_ratio_at_tick pairs ∅;
    if bad then Raise zip_strict_error
    else Ok {| swap_pools := pools; id := id0; input_token := input_token0;
               max_input := max_input; _swap_vectors := vectors;
               _pool_viability := viability |}.
Proof. by destruct swap_pools0. Qed.

(** X1: a cycle the constructor returns keeps the identifier and the input
    token it was given and, when the pools were given as a collection (a
    list, a tuple), those pools in their order; it has a positive maximum
    input (10^20 when none was given), one swap vector per pool it holds, and a
    viability flag for the address of every pool it holds. *)
Theorem init_invariants (input_token0 : Erc20Token)
    (swap_pools0 : Iterable Pool) (id0 : string) (max_input0 : option Z)
    (self : UniswapLpCycle) :
  __init__ get_sqrt_ratio_at_tick input_token0 swap_pools0 id0 max_input0
  = Ok self →
  (∀ pools, swap_pools0 = Collection pools → swap_pools self = pools) ∧
  id self = id0 ∧ input_token self = input_token0 ∧
  0 < max_input self ∧
  max_input self = default (100 * 10 ^ 18) max_input0 ∧
  length (_swap_vectors self) = length (swap_pools self) ∧
  (∀ pool, pool ∈ swap_pools self →
           is_Some (_pool_viability self !! address pool)).
Proof.
  rewrite init_on_held_pools.
  set (pools := match swap_pools0 with
                | Collection items => items
                | Iterator _ => []
                end).
  cbv zeta. intros H.
  assert (Hmax : ∃ m, 0 < m ∧ m = default (100 * 10 ^ 18) max_input0 ∧
    match max_input0 with
    | Some m => if m <=? 0
                then Raise (DegenbotValueError "Maximum input must be positive.")
                else Ok m
    | None => Ok (100 * 10 ^ 18)
    end = Ok m).
  { destruct max_input0 as [m|]; simpl in *.
    - destruct (Z.leb_spec m 0); [done|]. exists m. by repeat split.
    - eexists. by repeat split. }
  destruct Hmax as (m & Hpos & Hdef & Hm). rewrite Hm in H. simpl in H.
  destruct (build_swap_vectors input_token0 pools) as [vectors|] eqn:Hvs;
    [|done]. simpl in H.
  pose proof (contiguous_length _ _ _ (build_swap_vectors_contiguous _ _ _ Hvs))
    as Hlen.
  pose proof (zip_strict_same_length _ _ Hlen) as Hbad.
  pose proof (zip_strict_pairs _ _ Hlen) as Hpairs.
  destruct (zip_strict pools vectors) as [pairs bad]. simpl in *. subst bad.
  destruct (build_pool_viability _ pairs ∅) as [viability|] eqn:Hv; [|done].
  simpl in H. injection H as <-. simpl. repeat split; try done.
  { intros items ->. done. }
  intros pool Hpool. apply list_elem_of_lookup in Hpool as [i Hi].
  destruct (lookup_lt_is_Some_2 vectors i) as [v Hv'].
  { rewrite <- Hlen. by eapply lookup_lt_Some. }
  destruct (build_pool_viability_keys _ _ _ Hv) as [_ Hkeys].
  apply (Hkeys pool v). rewrite Hpairs. apply list_elem_of_lookup. exists i.
  by apply lookup_zip_with_Some; eexists _, _.
Qed.

(** X2: in a cycle the constructor returns the swap vectors are contiguous
    from the input token on: every vector takes the token its hop is handed,
    trades it against the other token of its pool with the matching direction
    flag, and hands on the token it receives. *)
Theorem init_swap_vectors_contiguous (input_token0 : Erc20Token)
    (swap_pools0 : Iterable Pool) (id0 : string) (max_input0 : option Z)
    (self : UniswapLpCycle) :
  __init__ get_sqrt_ratio_at_tick input_token0 swap_pools0 id0 max_input0
  = Ok self →
  contiguous (input_token self) (swap_pools self) (_swap_vectors self).
Proof.
  rewrite init_on_held_pools.
  set (pools := match swap_pools0 with
                | Collection items => items
                | Iterator _ => []
                end).
  cbv zeta. intros H.
  destruct (match max_input0 with Some _ => _ | None => _ end) as [m|];
    [|done]. simpl in H.
  destruct (build_swap_vectors input_token0 pools) as [vectors|] eqn:Hvs;
    [|done]. simpl in H.
  destruct (zip_strict pools vectors) as [pairs bad].
  destruct (build_pool_viability _ pairs ∅) as [viability|]; [|done].
  simpl in H. destruct bad; [done|]. injection H as <-. simpl.
  by apply build_swap_vectors_contiguous.
Qed.

(** X3: when the addresses of the pools are distinct, the flag the
    constructor stores for a pool is the answer of [_pool_is_viable] for that
    pool, its state at construction and its swap vector. *)
Theorem init_viability_flags (input_token0 : Erc20Token)
    (swap_pools0 : Iterable Pool) (id0 : string) (max_input0 : option Z)
    (self : UniswapLpCycle) (i : nat) (pool : Pool)
    (v : UniswapPoolSwapVector) :
  __init__ get_sqrt_ratio_at_tick input_token0 swap_pools0 id0 max_input0
  = Ok self →
  NoDup (address <$> swap_pools self) →
  swap_pools self !! i = Some pool →
  _swap_vectors self !! i = Some v →
  ∃ flag, _pool_viability self !! address pool = Some flag ∧
          _pool_is_viable get_sqrt_ratio_at_tick pool (state pool) v = Ok flag.
Proof.
  rewrite init_on_held_pools.
  set (pools := match swap_pools0 with
                | Collection items => items
                | Iterator _ => []
                end).
  cbv zeta. intros H Hnodup Hpool Hv.
  destruct (match max_input0 with Some _ => _ | None => _ end) as [m|];
    [|done]. simpl in H.
  destruct (build_swap_vectors input_token0 pools) as [vectors|] eqn:Hvs;
    [|done]. simpl in H.
  pose proof (contiguous_length _ _ _ (build_swap_vectors_contiguous _ _ _ Hvs))
    as Hlen.
  pose proof (zip_strict_pairs _ _ Hlen) as Hpairs.
  destruct (zip_strict pools vectors) as [pairs bad]. simpl in Hpairs.
  destruct (build_pool_viability _ pairs ∅) as [viability|] eqn:Hvi; [|done].
  simpl in H. destruct bad; [done|]. injection H as <-. simpl in *.
  destruct (build_pool_viability_values _ _ _ Hvi) as [_ Hvalues].
  { rewrite Hpairs, fst_zip by lia. done. }
  destruct (Hvalues pool v) as [Hviable [flag Hflag]].
  { rewrite Hpairs. apply list_elem_of_lookup. exists i.
    by apply lookup_zip_with_Some; eexists _, _. }
  exists flag. rewrite Hflag in Hviable. by split.
Qed.

End Constructor.

Lemma init_invariants_witness :
  (∀ pools, Collection [Examples.lp1; Examples.lp2] = Collection pools →
            swap_pools Examples.two_hop_cycle = pools) ∧
  id Examples.two_hop_cycle = "cycle" ∧
  input_token Examples.two_hop_cycle = Examples.WETH ∧
  0 < max_input Examples.two_hop_cycle ∧
  max_input Examples.two_hop_cycle = default (100 * 10 ^ 18) (Some 500) ∧
  length (_swap_vectors Examples.two_hop_cycle)
  = length (swap_pools Examples.two_hop_cycle) ∧
  (∀ pool, pool ∈ swap_pools Examples.two_hop_cycle →
           is_Some (_pool_viability Examples.two_hop_cycle !! address pool)).
Proof.
  apply (init_invariants Examples.tick_math Examples.WETH
           (Collection [Examples.lp1; Examples.lp2]) "cycle" (Some 500)).
  vm_compute. reflexivity.
Defined.

Lemma init_swap_vectors_contiguous_witness :
  contiguous (input_token Examples.two_hop_cycle)
    (swap_pools Examples.two_hop_cycle) (_swap_vectors Examples.two_hop_cycle).
Proof.
  apply (init_swap_vectors_contiguous Examples.tick_math Examples.WETH
           (Collection [Examples.lp1; Examples.lp2]) "cycle" (Some 500)).
  vm_compute. reflexivity.
Defined.

Lemma init_viability_flags_witness :
  ∃ flag,
    _pool_viability Examples.two_hop_cycle !! address Examples.lp2 = Some flag ∧
    _pool_is_viable Examples.tick_math Examples.lp2 (state Examples.lp2)
      Examples.dai_to_weth = Ok flag.
Proof.
  apply (init_viability_flags Examples.tick_math Examples.WETH
           (Collection [Examples.lp1; Examples.lp2]) "cycle" (Some 500)
           Examples.two_hop_cycle 1 Examples.lp2 Examples.dai_to_weth).
  - vm_compute. reflexivity.
  - simpl. repeat constructor; rewrite ?elem_of_cons, ?elem_of_nil;
      intros H; repeat destruct H as [H|H]; discriminate || done.
  - reflexivity.
  - reflexivity.
Defined.

(** ** The viability gate of the pre-calculation check *)

Section ViabilityGate.

Variable get_sqrt_ratio_at_tick : Z -> result Z.

(** The test of one pool, as a function of the attributes it reads. *)
Definition pool_not_viable_outcome (overrides : gmap string PoolState)
    (pool : Pool) (self : UniswapLpCycle) : result bool :=
  overridden_bad ←
    match overrides !! address pool with
    | Some override =>
        i ← pools_index (swap_pools self) pool;
        vector ← getitem (_swap_vectors self) i;
        viable ← _pool_is_viable get_sqrt_ratio_at_tick pool override vector;
        Ok (negb viable)
    | None => Ok false
    end;
  if overridden_bad : bool then Ok true
  else cached ← dict_getitem (_pool_viability self) (address pool);
       Ok (negb cached).

Lemma pool_not_viable_run (overrides : gmap string PoolState) (pool : Pool)
    (self : UniswapLpCycle) :
  pool_not_viable get_sqrt_ratio_at_tick overrides pool self
  = (pool_not_viable_outcome overrides pool self, self).
Proof.
  unfold pool_not_viable, pool_not_viable_outcome, mbind, M_bind, result_bind,
    reads, lift, mret, M_ret.
  destruct (overrides !! address pool) as [override|]; simpl.
  - destruct (pools_index _ _) as [i|]; simpl; [|done].
    destruct (getitem _ _) as [v|]; simpl; [|done].
    destruct (_pool_is_viable _ _ _ _) as [[]|]; simpl; try done.
    by destruct (dict_getitem _ _) as [[]|].
  - by destruct (dict_getitem _ _) as [[]|].
Qed.

(** The loop of the gate over a list of pools. *)
Definition gate_loop (overrides : gmap string PoolState) (l : list Pool)
  : M UniswapLpCycle unit :=
  for_each l (λ pool,
    bad ← pool_not_viable get_sqrt_ratio_at_tick overrides pool;
    if bad : bool
    then raise (ArbitrageError ("Pool " +:+ address pool +:+ " is not viable"))
    else mret tt).

Lemma gate_loop_cons (overrides : gmap string PoolState) (pool : Pool)
    (l : list Pool) (self : UniswapLpCycle) :
  gate_loop overrides (pool :: l) self
  = match pool_not_viable_outcome overrides pool self with
    | Ok true =>
        (Raise (ArbitrageError ("Pool " +:+ address pool +:+ " is not viable")),
         self)
    | Ok false => gate_loop overrides l self
    | Raise e => (Raise e, self)
    end.
Proof.
  unfold gate_loop. cbn [for_each]. unfold mbind, M_bind. cbv beta.
  rewrite pool_not_viable_run.
  by destruct (pool_not_viable_outcome overrides pool self) as [[]|].
Qed.

Lemma check_pools_viable_gate_loop (overrides : gmap string PoolState)
    (self : UniswapLpCycle) :
  check_pools_viable get_sqrt_ratio_at_tick overrides self
  = gate_loop overrides (swap_pools self) self.
Proof. done. Qed.

Lemma pre_calculation_check_gate (min_rate : Q)
    (state_overrides : option (gmap string PoolState)) (self : UniswapLpCycle) :
  _pre_calculation_check get_sqrt_ratio_at_tick min_rate state_overrides self
  = match (gate_loop (default ∅ state_overrides) (swap_pools self) self).1 with
    | Ok _ => check_rate_of_exchange min_rate (default ∅ state_overrides) self
    | Raise e => (Raise e, self)
    end.
Proof.
  unfold _pre_calculation_check.
  rewrite read_only_bind_run by apply check_pools_viable_read_only.
  by rewrite check_pools_viable_gate_loop.
Qed.

Lemma gate_loop_all_true (l : list Pool) (self : UniswapLpCycle) :
  (∀ pool, pool ∈ l → _pool_viability self !! address pool = Some true) →
  gate_loop ∅ l self = (Ok tt, self).
Proof.
  induction l as [|pool l IH]; intros Hall; [done|].
  rewrite gate_loop_cons. unfold pool_not_viable_outcome, dict_getitem.
  rewrite lookup_empty. simpl. rewrite (Hall pool) by by left. simpl.
  apply IH. intros p Hp. apply Hall. by right.
Qed.

Lemma gate_loop_some_false (l : list Pool) (self : UniswapLpCycle) :
  (∀ pool, pool ∈ l → is_Some (_pool_viability self !! address pool)) →
  (∃ pool, pool ∈ l ∧ _pool_viability self !! address pool = Some false) →
  ∃ pool, pool ∈ l ∧ _pool_viability self !! address pool = Some false ∧
          gate_loop ∅ l self
          = (Raise (ArbitrageError
                      ("Pool " +:+ address pool +:+ " is not viable")), self).
Proof.
  induction l as [|pool l IH]; intros Hall (bad & Hin & Hbad).
  - by apply elem_of_nil in Hin.
  - rewrite gate_loop_cons. unfold pool_not_viable_outcome, dict_getitem.
    rewrite lookup_empty. simpl.
    destruct (Hall pool) as [[] Hflag]; [by left| |]; rewrite Hflag; simpl.
    + destruct IH as (p & Hp & Hpf & Hrun).
      * intros p Hp. apply Hall. by right.
      * apply elem_of_cons in Hin as [->|Hin]; [congruence|eauto].
      * exists p. split; [by right|]. by split.
    + exists pool. split; [by left|]. by split.
Qed.

(** X4: without overrides, on a cycle that holds a flag for every pool, the
    pre-calculation check raises [ArbitrageError] naming a pool whose cached
    flag is [False] when there is one, and otherwise goes on to the rate of
    exchange: its outcome is then that of the rate check. *)
Theorem pre_calculation_check_cached_flags (min_rate_of_exchange : Q)
    (self : UniswapLpCycle) :
  (∀ pool, pool ∈ swap_pools self →
           is_Some (_pool_viability self !! address pool)) →
  ((∃ pool, pool ∈ swap_pools self ∧
            _pool_viability self !! address pool = Some false) →
   ∃ pool, pool ∈ swap_pools self ∧
           _pool_viability self !! address pool = Some false ∧
           _pre_calculation_check get_sqrt_ratio_at_tick min_rate_of_exchange
             None self
           = (Raise (ArbitrageError
                       ("Pool " +:+ address pool +:+ " is not viable")), self)) ∧
  ((∀ pool, pool ∈ swap_pools self →
            _pool_viability self !! address pool = Some true) →
   _pre_calculation_check get_sqrt_ratio_at_tick min_rate_of_exchange None self
   = check_rate_of_exchange min_rate_of_exchange ∅ self).
Proof.
  intros Hflags. split.
  - intros Hbad.
    destruct (gate_loop_some_false _ self Hflags Hbad) as (p & Hp & Hf & Hrun).
    exists p. split; [done|]. split; [done|].
    rewrite pre_calculation_check_gate. simpl. by rewrite Hrun.
  - intros Hall. rewrite pre_calculation_check_gate. simpl.
    by rewrite gate_loop_all_true.
Qed.

Lemma gate_loop_cached_false (overrides : gmap string PoolState)
    (l : list Pool) (self : UniswapLpCycle) (pool : Pool) :
  pool ∈ l → _pool_viability self !! address pool = Some false →
  ∃ e, gate_loop overrides l self = (Raise e, self).
Proof.
  intros Hin Hflag. induction l as [|p l IH]; [by apply elem_of_nil in Hin|].
  rewrite gate_loop_cons.
  destruct (pool_not_viable_outcome overrides p self) as [[]|e] eqn:Hout;
    [by eexists| |by eexists].
  apply elem_of_cons in Hin as [<-|Hin]; [|by apply IH].
  exfalso. unfold pool_not_viable_outcome, dict_getitem in Hout.
  rewrite Hflag in Hout.
  destruct (overrides !! address pool) as [override|]; simpl in Hout;
    [|done].
  destruct (pools_index _ _); simpl in Hout; [|done].
  destruct (getitem _ _); simpl in Hout; [|done].
  by destruct (_pool_is_viable _ _ _ _) as [[]|].
Qed.

(** X5: a pool whose cached viability flag is [False] makes the
    pre-calculation check raise whatever the overrides: a viable override
    state for that pool does not let the check pass, and the cycle is left
    as it was. *)
Theorem pre_calculation_check_cached_false (min_rate_of_exchange : Q)
    (state_overrides : option (gmap string PoolState)) (self : UniswapLpCycle)
    (pool : Pool) :
  pool ∈ swap_pools self →
  _pool_viability self !! address pool = Some false →
  ∃ e, _pre_calculation_check get_sqrt_ratio_at_tick min_rate_of_exchange
         state_overrides self = (Raise e, self).
Proof.
  intros Hin Hflag. rewrite pre_calculation_check_gate.
  destruct (gate_loop_cached_false (default ∅ state_overrides) _ self pool
              Hin Hflag) as [e ->]. by exists e.
Qed.

End ViabilityGate.

Lemma two_pools_flagged (viability : gmap string bool) :
  is_Some (viability !! "0xAAA1") → is_Some (viability !! "0xAAA2") →
  ∀ pool, pool ∈ [Examples.lp1; Examples.lp2] →
          is_Some (viability !! address pool).
Proof.
  intros H1 H2 pool Hin. apply elem_of_cons in Hin as [->|Hin]; [done|].
  by apply list_elem_of_singleton in Hin as ->.
Qed.

Lemma pre_calculation_check_cached_flags_witness :
  (∃ pool, pool ∈ swap_pools Examples.flagged_cycle ∧
           _pool_viability Examples.flagged_cycle !! address pool = Some false ∧
           _pre_calculation_check Examples.tick_math 1%Q None
             Examples.flagged_cycle
           = (Raise (ArbitrageError
                       ("Pool " +:+ address pool +:+ " is not viable")),
              Examples.flagged_cycle)) ∧
  _pre_calculation_check Examples.tick_math 1%Q None Examples.two_hop_cycle
  = check_rate_of_exchange 1%Q ∅ Examples.two_hop_cycle.
Proof.
  split.
  - apply (pre_calculation_check_cached_flags Examples.tick_math 1%Q
             Examples.flagged_cycle).
    + by apply two_pools_flagged.
    + exists Examples.lp2. split; [by right; left|done].
  - apply (pre_calculation_check_cached_flags Examples.tick_math 1%Q
             Examples.two_hop_cycle).
    + by apply two_pools_flagged.
    + intros pool Hin. apply elem_of_cons in Hin as [->|Hin]; [done|].
      by apply list_elem_of_singleton in Hin as ->.
Defined.

Lemma pre_calculation_check_cached_false_witness :
  ∃ e, _pre_calculation_check Examples.tick_math 1%Q
         (Some {[ "0xAAA2" := UniswapV2PoolState (Some 101) 1050 950 ]})
         Examples.flagged_cycle = (Raise e, Examples.flagged_cycle).
Proof.
  apply (pre_calculation_check_cached_false Examples.tick_math 1%Q
           (Some {[ "0xAAA2" := UniswapV2PoolState (Some 101) 1050 950 ]})
           Examples.flagged_cycle Examples.lp2).
  - by right; left.
  - done.
Defined.

(** ** Edge cases of the rate of exchange *)

Section RateEdges.

Variable get_sqrt_ratio_at_tick : Z -> result Z.

Lemma exchange_rate_terms_identified (pool : Pool) (st : PoolState)
    (vector : UniswapPoolSwapVector) :
  hop_identified pool st →
  ∃ n d, exchange_rate_terms pool st vector = Ok (n, d) ∧
         (hop_inbound_empty st vector → d = 0).
Proof.
  unfold hop_identified, hop_inbound_empty, exchange_rate_terms.
  destruct st as [b r0 r1|b r0 r1|b l p t td]; intros ->;
    destruct (zero_for_one vector); do 2 eexists;
    (split; [reflexivity|]); try (intros ->; lia); intros [? ->]; done || lia.
Qed.

Lemma exchange_rate_loop_products (overrides : gmap string PoolState)
    (l : list (Pool * UniswapPoolSwapVector)) (nums dens : list Z) :
  Forall (λ '(pool, v), hop_identified pool (state_in_effect overrides pool)) l →
  ∃ nums' dens' n d,
    exchange_rate_loop overrides l nums dens = Ok (nums', dens') ∧
    math_prod nums' = math_prod nums * n ∧
    math_prod dens' = math_prod dens * d ∧
    (Exists (λ '(pool, v),
               hop_inbound_empty (state_in_effect overrides pool) v) l →
     d = 0).
Proof.
  revert nums dens. induction l as [|[pool v] l IH]; intros nums dens Hall.
  - exists nums, dens, 1, 1. simpl. repeat split; try lia.
    intros H. by apply Exists_nil in H.
  - apply Forall_cons in Hall as [Hhop Hall].
    destruct (exchange_rate_terms_identified _ _ v Hhop) as (n & d & Ht & Hd).
    destruct (IH (nums ++ [n]) (dens ++ [d]) Hall)
      as (nums' & dens' & n' & d' & Hloop & Hn & Hd' & Hzero).
    exists nums', dens', (n * n'), (d * d'). simpl. rewrite Ht. simpl.
    rewrite Hloop, Hn, Hd', !math_prod_snoc. repeat split; try lia.
    intros Hex. apply Exists_cons in Hex as [Hex|Hex].
    + rewrite (Hd Hex). lia.
    + rewrite (Hzero Hex). lia.
Qed.

(** X6: when every pool passes the viability gate and every hop is of a known
    kind, but the side some hop enters is empty (a zero inbound reserve, or a
    zero price on a one-for-zero trade), the check ends in
    [ZeroDivisionError] from building the fraction, not in [ArbitrageError];
    the cycle is unchanged. *)
Theorem pre_calculation_check_zero_division (min_rate_of_exchange : Q)
    (state_overrides : option (gmap string PoolState)) (self : UniswapLpCycle) :
  let overrides := default ∅ state_overrides in
  (check_pools_viable get_sqrt_ratio_at_tick overrides self).1 = Ok tt →
  length (swap_pools self) = length (_swap_vectors self) →
  Forall (λ '(pool, st, vector), hop_identified pool st) (hops self overrides) →
  Exists (λ '(pool, st, vector), hop_inbound_empty st vector)
    (hops self overrides) →
  _pre_calculation_check get_sqrt_ratio_at_tick min_rate_of_exchange
    state_overrides self = (Raise ZeroDivisionError, self).
Proof.
  intros overrides Hviable Hlen Hhops Hempty.
  unfold _pre_calculation_check. fold overrides.
  rewrite read_only_bind_run by apply check_pools_viable_read_only.
  rewrite Hviable. unfold check_rate_of_exchange, hops in *.
  unfold mbind at 1 2, M_bind, reads. simpl.
  pose proof (zip_strict_same_length _ _ Hlen) as Hbad.
  destruct (zip_strict (swap_pools self) (_swap_vectors self)) as [pairs bad].
  simpl in Hbad, Hhops, Hempty |- *. subst bad.
  rewrite Forall_fmap in Hhops. rewrite Exists_fmap in Hempty.
  destruct (exchange_rate_loop_products overrides pairs [] [])
    as (nums & dens & n & d & Hloop & Hn & Hd & Hzero).
  { eapply Forall_impl; [exact Hhops|]. by intros [pool v]. }
  unfold mbind, M_bind, lift. simpl. rewrite Hloop. simpl.
  rewrite Hd, Hzero, Z.mul_0_r; [done|].
  eapply Exists_impl; [exact Hempty|]. by intros [pool v].
Qed.

End RateEdges.

(** The constructor accepts a sparse pool without a price: its flag is
    [True]. *)
Example unpriced_cycle_constructed :
  __init__ unbound_get_sqrt_ratio_at_tick Examples.WETH
    (Collection [Examples.lp1; Examples.lp3_unpriced]) "cycle" (Some 500)
  = Ok Examples.unpriced_cycle.
Proof. vm_compute. reflexivity. Qed.

Lemma pre_calculation_check_zero_division_witness :
  _pre_calculation_check Examples.tick_math 1%Q None Examples.unpriced_cycle
  = (Raise ZeroDivisionError, Examples.unpriced_cycle).
Proof.
  apply (pre_calculation_check_zero_division Examples.tick_math 1%Q None
           Examples.unpriced_cycle).
  - vm_compute. reflexivity.
  - reflexivity.
  - repeat constructor.
  - right. left. by split.
Defined.

(** ** Notifications *)

Section NotifyProperties.

Variable get_sqrt_ratio_at_tick : Z -> result Z.

(** X7: whatever the publisher, the message and the outcome, [notify] leaves
    the pools, the swap vectors, the identifier, the input token and the
    maximum input of the cycle alone, and changes no viability flag other
    than the one at the address of the publisher. *)
Theorem notify_frame (publisher : Pool) (message_state : PoolState)
    (self : UniswapLpCycle) :
  let after :=
    (notify get_sqrt_ratio_at_tick publisher message_state self).2 in
  swap_pools after = swap_pools self ∧
  _swap_vectors after = _swap_vectors self ∧
  id after = id self ∧ input_token after = input_token self ∧
  max_input after = max_input self ∧
  ∀ a, a ≠ address publisher →
       _pool_viability after !! a = _pool_viability self !! a.
Proof. intros after. subst after. by unfold notify. Qed.

End NotifyProperties.

Lemma notify_frame_witness :
  let after :=
    (notify Examples.tick_math Examples.lp2
       (UniswapV2PoolState (Some 101) 0 950) Examples.two_hop_cycle).2 in
  swap_pools after = swap_pools Examples.two_hop_cycle ∧
  _swap_vectors after = _swap_vectors Examples.two_hop_cycle ∧
  id after = id Examples.two_hop_cycle ∧
  input_token after = input_token Examples.two_hop_cycle ∧
  max_input after = max_input Examples.two_hop_cycle ∧
  ∀ a, a ≠ address Examples.lp2 →
       _pool_viability after !! a
       = _pool_viability Examples.two_hop_cycle !! a.
Proof.
  exact (notify_frame Examples.tick_math Examples.lp2
           (UniswapV2PoolState (Some 101) 0 950) Examples.two_hop_cycle).
Defined.

(** ** [calculate] and the states it prices pools at *)

Section CalculateProperties.

Variable get_sqrt_ratio_at_tick : Z -> result Z.
Variable calculate_tokens_out_from_tokens_in :
  Pool -> Erc20Token -> Z -> option PoolState -> result Z.
Variable float : Type.
Variable int_of_float : float -> Z.
Variable float_of_int : Z -> float.
Variable float_neg : float -> float.
Variable minimize_scalar : (float -> result float) -> Z -> result (float * float).
Variables MIN_SQRT_RATIO MAX_SQRT_RATIO : Z.

#[local] Abbreviation run_calculate :=
  (calculate get_sqrt_ratio_at_tick calculate_tokens_out_from_tokens_in float
     int_of_float float_of_int float_neg minimize_scalar MIN_SQRT_RATIO
     MAX_SQRT_RATIO).

(** X9: [calculate] never changes the cycle; when the pre-calculation check
    raises, [calculate] raises the same exception whatever the minimizer and
    the swap calculations would do; when the check passes, its outcome is
    that of [_calculate] on the same overrides. *)
Theorem calculate_after_check
    (state_overrides : option (gmap string PoolState))
    (min_rate_of_exchange : Q) (self : UniswapLpCycle) :
  let check :=
    (_pre_calculation_check get_sqrt_ratio_at_tick min_rate_of_exchange
       state_overrides self).1 in
  let outcome := run_calculate state_overrides min_rate_of_exchange self in
  outcome.2 = self ∧
  (∀ e, check = Raise e → outcome.1 = Raise e) ∧
  (check = Ok tt →
   outcome.1
   = _calculate calculate_tokens_out_from_tokens_in float int_of_float
       float_of_int float_neg minimize_scalar MIN_SQRT_RATIO MAX_SQRT_RATIO
       self state_overrides).
Proof.
  intros check outcome. subst check outcome. unfold calculate.
  rewrite read_only_bind_run by apply pre_calculation_check_read_only.
  destruct (_pre_calculation_check _ _ _ self).1 as [[]|e]; simpl.
  - unfold mbind, M_bind, reads, lift. simpl. split; [done|].
    split; [by intros e [=]|done].
  - split; [done|]. split; [by intros e' [= ->]|done].
Qed.

(** X10: when pools that share an address share their state, the dictionary
    of states [_calculate] builds holds, at the address of every pool of the
    cycle, the state the pre-calculation check prices that pool at (the
    override if there is one, the state of the pool otherwise); the profit
    function therefore finds a state for every pool. *)
Theorem calculate_prices_at_checked_states (self : UniswapLpCycle)
    (state_overrides : option (gmap string PoolState)) (pool : Pool) :
  (∀ p q, p ∈ swap_pools self → q ∈ swap_pools self →
          address p = address q → state p = state q) →
  pool ∈ swap_pools self →
  pool_states_of (swap_pools self) state_overrides !! address pool
  = Some (state_in_effect (default ∅ state_overrides) pool).
Proof.
  intros Hsame Hin. unfold state_in_effect.
  pose proof (states_by_address_lookup _ _ Hsame Hin) as Hcached.
  destruct state_overrides as [overrides|]; simpl.
  - destruct (overrides !! address pool) as [st|] eqn:Hov; simpl.
    + by apply lookup_union_Some_l.
    + by rewrite lookup_union_r.
  - by rewrite lookup_empty.
Qed.

End CalculateProperties.

Lemma calculate_prices_at_checked_states_witness :
  pool_states_of (swap_pools Examples.two_hop_cycle)
    (Some {[ "0xAAA2" := UniswapV2PoolState (Some 105) 1050 950 ]})
    !! address Examples.lp2
  = Some (state_in_effect
            (default ∅
               (Some {[ "0xAAA2" := UniswapV2PoolState (Some 105) 1050 950 ]}))
            Examples.lp2).
Proof.
  apply (calculate_prices_at_checked_states Examples.two_hop_cycle
           (Some {[ "0xAAA2" := UniswapV2PoolState (Some 105) 1050 950 ]})
           Examples.lp2).
  - intros p q Hp Hq.
    apply elem_of_cons in Hp as [->|Hp];
      [|apply list_elem_of_singleton in Hp as ->];
      (apply elem_of_cons in Hq as [->|Hq];
       [|apply list_elem_of_singleton in Hq as ->]); done.
  - by right; left.
Defined.

Lemma calculate_after_check_witness :
  (calculate Examples.tick_math Examples.swap_adapter Q Examples.int_of_Q
     inject_Z Qopp Examples.probe_once 4295128739
     1461446703485210103287273052203988822378723970342 None 1%Q
     Examples.flagged_cycle).1
  = Raise (ArbitrageError "Pool 0xAAA2 is not viable").
Proof.
  apply (calculate_after_check Examples.tick_math Examples.swap_adapter Q
           Examples.int_of_Q inject_Z Qopp Examples.probe_once 4295128739
           1461446703485210103287273052203988822378723970342 None 1%Q
           Examples.flagged_cycle).
  vm_compute. reflexivity.
Defined.

(** ** Replaying the chosen input *)

Section BuildSwapAmounts.

Variable calculate_tokens_out_from_tokens_in :
  Pool -> Erc20Token -> Z -> option PoolState -> result Z.
Variables MIN_SQRT_RATIO MAX_SQRT_RATIO : Z.

#[local] Abbreviation build_one :=
  (build_swap_amount calculate_tokens_out_from_tokens_in MIN_SQRT_RATIO
     MAX_SQRT_RATIO).
#[local] Abbreviation build_loop :=
  (build_swap_amounts_loop calculate_tokens_out_from_tokens_in MIN_SQRT_RATIO
     MAX_SQRT_RATIO).
#[local] Abbreviation build_all :=
  (_build_swap_amounts calculate_tokens_out_from_tokens_in MIN_SQRT_RATIO
     MAX_SQRT_RATIO).

(** One hop of the replay, when it succeeds. *)
Lemma build_swap_amount_ok (pool : Pool) (v : UniswapPoolSwapVector)
    (override : option PoolState) (quantity out : Z) (amount : SwapAmount) :
  build_one pool v override quantity = Ok (out, amount) →
  calculate_tokens_out_from_tokens_in pool (token_in v) quantity override
  = Ok out ∧
  out ≠ 0 ∧ is_Some (match_pool_override (pool_class pool) override) ∧
  swap_amount_pool amount = address pool ∧
  swap_amount_input amount = quantity ∧ swap_amount_fits pool amount.
Proof.
  unfold build_swap_amount.
  destruct (match_pool_override _ _) as [family|] eqn:Hfam; [|done].
  destruct (calculate_tokens_out_from_tokens_in _ _ _ _) as [o|e]; simpl;
    [|by destruct e].
  destruct (Z.eqb_spec o 0) as [|Hne]; [done|].
  assert (Hv2 : family = FamilyAerodromeV2 ∨ family = FamilyUniswapV2 →
                isinstance_V2 (pool_class pool) = true).
  { intros Hf. destruct (pool_class pool), override as [[]|];
      simpl in Hfam; simplify_eq; try done; by destruct Hf. }
  assert (Hv3 : family = FamilyUniswapV3 →
                isinstance_UniswapV3Pool (pool_class pool) = true).
  { intros ->. destruct (pool_class pool), override as [[]|];
      simpl in Hfam; simplify_eq; done. }
  destruct family; intros [= <- <-]; simpl;
    (split; [done|]); (split; [done|]); (split; [by eexists|]);
    (split; [done|]); (split; [|by auto]);
    try done; destruct (zero_for_one v); simpl; lia.
Qed.


Lemma build_swap_amounts_loop_shape (pool_states : gmap string PoolState)
    (l : list (Pool * UniswapPoolSwapVector)) (bad first : bool)
    (quantity out0 : Z) (acc amounts : list SwapAmount) :
  build_loop pool_states l bad first quantity out0 acc = Ok amounts →
  ∃ new, amounts = acc ++ new ∧ length new = length l ∧
         (∀ i pool v amount, l !! i = Some (pool, v) → new !! i = Some amount →
            swap_amount_pool amount = address pool ∧
            swap_amount_fits pool amount) ∧
         (∀ amount, new !! 0%nat = Some amount →
            swap_amount_input amount = if first then quantity else out0).
Proof.
  revert first out0 acc.
  induction l as [|[pool v] l IH]; intros first out0 acc; simpl.
  - destruct bad; [done|]. intros [= <-]. exists []. rewrite app_nil_r.
    split; [done|]. split; [done|]. split; [by intros ? ? ? ? [=]|].
    by intros ? [=].
  - destruct (build_one _ _ _ _) as [[out amount]|] eqn:Hone; [|done]. simpl.
    intros Hloop. destruct (IH _ _ _ Hloop) as (new & -> & Hlen & Hshape & _).
    apply build_swap_amount_ok in Hone
      as (_ & _ & _ & Hpool & Hinput & Hfits).
    exists (amount :: new). rewrite <- app_assoc. simpl.
    split; [done|]. split; [by rewrite Hlen|]. split.
    + intros [|i] p w a; simpl.
      * by intros [= <- <-] [= <-].
      * apply Hshape.
    + by intros a [= <-].
Qed.

(** X11: when the replay returns, it returns one swap-amount record per
    pool, in the order of the pools; each record names its pool and is of
    the kind the class of the pool calls for, and the first record puts in
    the quantity the replay was given. *)
Theorem build_swap_amounts_shape (self : UniswapLpCycle)
    (token_in_quantity : Z) (pool_states : gmap string PoolState)
    (amounts : list SwapAmount) :
  build_all self token_in_quantity pool_states = Ok amounts →
  length amounts = length (swap_pools self) ∧
  (∀ i pool amount, swap_pools self !! i = Some pool →
                    amounts !! i = Some amount →
                    swap_amount_pool amount = address pool ∧
                    swap_amount_fits pool amount) ∧
  (∀ amount, amounts !! 0%nat = Some amount →
             swap_amount_input amount = token_in_quantity).
Proof.
  unfold _build_swap_amounts. intros H.
  assert (Hlen : length (swap_pools self) = length (_swap_vectors self)).
  { clear -H. revert H. generalize (@nil SwapAmount), 0, true.
    generalize (_swap_vectors self).
    induction (swap_pools self) as [|p ps IH]; intros [|v vs] first o acc;
      simpl; try done.
    destruct (zip_strict ps vs) as [pairs bad] eqn:Hz. simpl.
    destruct (build_one _ _ _ _) as [[out amount]|]; [|done]. simpl.
    intros Hloop. f_equal. eapply (IH vs). rewrite Hz. exact Hloop. }
  pose proof (zip_strict_pairs _ _ Hlen) as Hpairs.
  destruct (zip_strict (swap_pools self) (_swap_vectors self)) as [pairs bad].
  simpl in Hpairs. subst pairs.
  destruct (build_swap_amounts_loop_shape _ _ _ _ _ _ _ _ H)
    as (new & -> & Hnew & Hshape & Hfirst).
  simpl. rewrite Hnew, length_zip_with, <- Hlen, Nat.min_id.
  split; [done|]. split; [|done].
  intros i pool amount Hpool Hamount.
  destruct (lookup_lt_is_Some_2 (_swap_vectors self) i) as [v Hv].
  { rewrite <- Hlen. by eapply lookup_lt_Some. }
  apply (Hshape i pool v amount); [|done].
  by apply lookup_zip_with_Some; eexists _, _.
Qed.



End BuildSwapAmounts.


(** The fault of the first pool at an input of zero surfaces as
    [ArbitrageError] with the text of the fault. *)
Example build_swap_amounts_fault :
  _build_swap_amounts Examples.swap_adapter 4295128739
    1461446703485210103287273052203988822378723970342 Examples.two_hop_cycle 0
    (pool_states_of (swap_pools Examples.two_hop_cycle) None)
  = Raise (ArbitrageError "zero input").
Proof. vm_compute. reflexivity. Qed.

Lemma build_swap_amounts_shape_witness :
  let amounts :=
    [UniswapV2PoolSwapAmounts "0xAAA1" (100, 0) (0, 90);
     UniswapV2PoolSwapAmounts "0xAAA2" (0, 90) (90, 0)] in
  length amounts = length (swap_pools Examples.two_hop_cycle) ∧
  (∀ i pool amount, swap_pools Examples.two_hop_cycle !! i = Some pool →
                    amounts !! i = Some amount →
                    swap_amount_pool amount = address pool ∧
                    swap_amount_fits pool amount) ∧
  (∀ amount, amounts !! 0%nat = Some amount →
             swap_amount_input amount = 100).
Proof.
  apply (build_swap_amounts_shape Examples.swap_adapter 4295128739
           1461446703485210103287273052203988822378723970342
           Examples.two_hop_cycle 100
           (pool_states_of (swap_pools Examples.two_hop_cycle) None)).
  vm_compute. reflexivity.
Defined.

Section ReplayAndProfit.

Variable calculate_tokens_out_from_tokens_in :
  Pool -> Erc20Token -> Z -> option PoolState -> result Z.
Variable float : Type.
Variable int_of_float : float -> Z.
Variable float_of_int : Z -> float.
Variable float_neg : float -> float.
Variables MIN_SQRT_RATIO MAX_SQRT_RATIO : Z.

Lemma zip_strict_fst {A B} (a : list A) (b : list B) :
  (zip_strict a b).1 = zip a b.
Proof.
  revert b. induction a as [|x a IH]; intros [|y b]; simpl; try done.
  specialize (IH b). destruct (zip_strict a b). simpl in *. by f_equal.
Qed.

(** The replay and the loop of the profit function, hop by hop, on the same
    list of hops. *)
Lemma build_swap_amounts_loop_replay (pool_states : gmap string PoolState)
    (l : list (Pool * UniswapPoolSwapVector)) (bad first : bool)
    (quantity out0 : Z) (acc amounts : list SwapAmount) :
  build_swap_amounts_loop calculate_tokens_out_from_tokens_in MIN_SQRT_RATIO
    MAX_SQRT_RATIO pool_states l bad first quantity out0 acc = Ok amounts →
  (∀ pool v, (pool, v) ∈ l → is_Some (pool_states !! address pool)) →
  let q0 := if first then quantity else out0 in
  let quotes :=
    hop_quote calculate_tokens_out_from_tokens_in pool_states <$> l in
  ∃ out new,
    amounts = acc ++ new ∧
    arb_profit_loop calculate_tokens_out_from_tokens_in pool_states l bad first
      quantity out0 = Ok out ∧
    chain quotes q0 = Ok (match l with [] => q0 | _ => out end) ∧
    (l ≠ [] → out ≠ 0) ∧ (l = [] → out = out0) ∧
    (∀ i amount, new !! i = Some amount →
                 chain (take i quotes) q0 = Ok (swap_amount_input amount)).
Proof.
  revert first out0 acc.
  induction l as [|[pool v] l IH]; intros first out0 acc; simpl.
  - destruct bad; [done|]. intros [= <-] _. exists out0, [].
    rewrite app_nil_r. by repeat split.
  - destruct (build_swap_amount _ _ _ _ _ _ _) as [[out amount]|] eqn:Hone;
      [|done]. simpl. intros Hloop Hstates.
    apply build_swap_amount_ok in Hone
      as (Hcalc & Hout & [family Hfam] & _ & Hinput & _).
    destruct (Hstates pool v) as [st Hst]; [by left|].
    assert (Hquote :
      hop_quote calculate_tokens_out_from_tokens_in pool_states (pool, v)
        (if first then quantity else out0) = Ok out) by exact Hcalc.
    cbv zeta. rewrite Hquote. cbn [mbind result_bind].
    change (list_fmap _ _ ?f l) with (f <$> l).
    rewrite Hst in Hcalc, Hfam. simpl in Hfam.
    unfold dict_getitem. rewrite Hst. cbn [mbind result_bind].
    rewrite Hfam, Hcalc. cbn [mbind result_bind].
    destruct (IH _ _ _ Hloop)
      as (out' & new & -> & -> & Hchain & Hne & Hnil & Hitems).
    { intros p w Hin. apply (Hstates p w). by right. }
    cbv zeta in Hchain, Hitems. cbn [negb] in Hchain, Hitems.
    exists out', (amount :: new). rewrite <- app_assoc.
    split; [done|]. split; [done|]. split.
    { rewrite Hchain. destruct l as [|hop l]; [by rewrite Hnil|done]. }
    split.
    { intros _. destruct l as [|hop l]; [by rewrite Hnil|by apply Hne]. }
    split; [done|].
    intros [|i] a.
    + intros [= <-]. simpl. by rewrite Hinput.
    + intros Ha. cbn [take chain]. rewrite Hquote. cbn [mbind result_bind].
      by apply Hitems.
Qed.

(** X13: when the replay of a quantity returns on a dictionary that holds a
    state for every pool, the profit function at any [x] that truncates to
    that quantity has met no fault: every hop's swap calculation returned on
    what the hops before it put out, the profit function returns the negated
    difference between what the last hop put out and the quantity, that
    output is not zero unless the cycle has no pool, and the quantity every
    replayed record puts in is what the hops before it put out. *)
Theorem replay_agrees_with_profit (self : UniswapLpCycle) (x : float)
    (pool_states : gmap string PoolState) (amounts : list SwapAmount) :
  _build_swap_amounts calculate_tokens_out_from_tokens_in MIN_SQRT_RATIO
    MAX_SQRT_RATIO self (int_of_float x) pool_states = Ok amounts →
  (∀ pool, pool ∈ swap_pools self → is_Some (pool_states !! address pool)) →
  let quantity := int_of_float x in
  let quotes :=
    hop_quote calculate_tokens_out_from_tokens_in pool_states
      <$> zip (swap_pools self) (_swap_vectors self) in
  ∃ out,
    whole_cycle_output quotes quantity = Ok out ∧
    arb_profit calculate_tokens_out_from_tokens_in float int_of_float
      float_of_int float_neg self pool_states x
    = Ok (float_neg (float_of_int (out - quantity))) ∧
    (swap_pools self ≠ [] → out ≠ 0) ∧
    (∀ i amount, amounts !! i = Some amount →
                 chain (take i quotes) quantity
                 = Ok (swap_amount_input amount)).
Proof.
  intros Hbuild Hstates quantity quotes. subst quotes.
  unfold _build_swap_amounts in Hbuild. unfold arb_profit.
  fold quantity in Hbuild |- *.
  pose proof (zip_strict_fst (swap_pools self) (_swap_vectors self)) as Hfst.
  destruct (zip_strict (swap_pools self) (_swap_vectors self))
    as [pairs bad] eqn:Hzip.
  simpl in Hfst. subst pairs.
  destruct (build_swap_amounts_loop_replay _ _ _ _ _ _ _ _ Hbuild)
    as (out & new & -> & -> & Hchain & Hne & Hnil & Hitems).
  { intros pool v Hin. apply Hstates.
    apply list_elem_of_lookup in Hin as [i Hi].
    apply lookup_zip_with_Some in Hi as (p & w & [= <- <-] & Hp & _).
    by eapply list_elem_of_lookup_2. }
  simpl in Hchain, Hitems. exists out. split.
  { unfold whole_cycle_output.
    destruct (zip (swap_pools self) (_swap_vectors self)) as [|hop l];
      [by rewrite Hnil|done]. }
  split; [done|]. split; [|done].
  intros Hpools. apply Hne. intros Hnone.
  destruct (swap_pools self) as [|p ps]; [done|].
  destruct (_swap_vectors self) as [|w ws]; simpl in Hzip, Hnone; [|done].
  injection Hzip as <-. by simpl in Hbuild.
Qed.

End ReplayAndProfit.

(** At 30.9 the two-hop cycle is replayed and probed at 30: the first pool
    puts out 29, which the second record puts in, and the cycle returns 31. *)
Lemma replay_agrees_with_profit_witness :
  ∃ out,
    whole_cycle_output
      (hop_quote Examples.swap_adapter
         (pool_states_of (swap_pools Examples.two_hop_cycle) None)
         <$> zip (swap_pools Examples.two_hop_cycle)
               (_swap_vectors Examples.two_hop_cycle))
      (Examples.int_of_Q (309 # 10)) = Ok out ∧
    arb_profit Examples.swap_adapter Q Examples.int_of_Q inject_Z Qopp
      Examples.two_hop_cycle
      (pool_states_of (swap_pools Examples.two_hop_cycle) None) (309 # 10)
    = Ok (- inject_Z (out - Examples.int_of_Q (309 # 10)))%Q ∧
    (swap_pools Examples.two_hop_cycle ≠ [] → out ≠ 0) ∧
    (∀ i amount,
       [UniswapV2PoolSwapAmounts "0xAAA1" (30, 0) (0, 29);
        UniswapV2PoolSwapAmounts "0xAAA2" (0, 29) (31, 0)] !! i = Some amount →
       chain
         (take i
            (hop_quote Examples.swap_adapter
               (pool_states_of (swap_pools Examples.two_hop_cycle) None)
               <$> zip (swap_pools Examples.two_hop_cycle)
                     (_swap_vectors Examples.two_hop_cycle)))
         (Examples.int_of_Q (309 # 10))
       = Ok (swap_amount_input amount)).
Proof.
  apply (replay_agrees_with_profit Examples.swap_adapter Q Examples.int_of_Q
           inject_Z Qopp 4295128739
           1461446703485210103287273052203988822378723970342
           Examples.two_hop_cycle (309 # 10)
           (pool_states_of (swap_pools Examples.two_hop_cycle) None)
           [UniswapV2PoolSwapAmounts "0xAAA1" (30, 0) (0, 29);
            UniswapV2PoolSwapAmounts "0xAAA2" (0, 29) (31, 0)]).
  - vm_compute. reflexivity.
  - intros pool Hin. apply elem_of_cons in Hin as [->|Hin];
      [|apply list_elem_of_singleton in Hin as ->]; by eexists.
Defined.

(** The output the witness speaks of is 31. *)
Example replay_two_hop_output :
  whole_cycle_output
    (hop_quote Examples.swap_adapter
       (pool_states_of (swap_pools Examples.two_hop_cycle) None)
       <$> zip (swap_pools Examples.two_hop_cycle)
             (_swap_vectors Examples.two_hop_cycle)) 30
  = Ok 31.
Proof. vm_compute. reflexivity. Qed.

(** ** The payloads, hop by hop *)

Section PayloadsByHop.

Variable to_checksum_address : string -> result string.

Lemma generate_payloads_loop_hops (self : UniswapLpCycle)
    (from_address : string) (swap_amount : Z) (l : list (Pool * SwapAmount))
    (bad : bool) (i : nat) (acc payloads : list Payload) :
  generate_payloads_loop self from_address swap_amount l bad i acc
  = Ok payloads →
  bad = false ∧
  ∃ new, payloads = acc ++ new ∧ length new = length l ∧
         ∀ j pool amount payload,
           l !! j = Some (pool, amount) → new !! j = Some payload →
           payload_of_hop self from_address swap_amount (i + j) pool amount
           = Ok payload.
Proof.
  revert i acc. induction l as [|[pool amount] l IH]; intros i acc; simpl.
  - destruct bad; [done|]. intros [= <-]. split; [done|]. exists [].
    rewrite app_nil_r. split; [done|]. split; [done|]. by intros ? ? ? ? [=].
  - destruct (payload_of_hop _ _ _ _ _ _) as [payload|] eqn:Hp; [|done].
    simpl. intros H. destruct (IH _ _ H) as (Hbad & new & -> & Hlen & Hnew).
    split; [done|]. exists (payload :: new). rewrite <- app_assoc.
    split; [done|]. split; [by simpl; rewrite Hlen|].
    intros [|j] p a pl; simpl.
    + intros [= <- <-] [= <-]. by rewrite Nat.add_0_r.
    + intros Hl Hn. rewrite <- Nat.add_succ_comm. by eapply Hnew.
Qed.

Lemma zip_strict_lookup {A B} (a : list A) (b : list B) (i : nat) (x : A)
    (y : B) :
  (zip_strict a b).2 = false → a !! i = Some x → b !! i = Some y →
  (zip_strict a b).1 !! i = Some (x, y).
Proof.
  revert b i. induction a as [|x' a IH]; intros [|y' b] [|i]; simpl;
    try done; destruct (zip_strict a b) as [l bad] eqn:Hz; simpl in *.
  - by intros _ [= ->] [= ->].
  - intros Hbad Ha Hb. specialize (IH b i). rewrite Hz in IH. by apply IH.
Qed.

Lemma zip_strict_length {A B} (a : list A) (b : list B) :
  (zip_strict a b).2 = false →
  length a = length b ∧ length (zip_strict a b).1 = length a.
Proof.
  revert b. induction a as [|x a IH]; intros [|y b]; simpl; try done.
  specialize (IH b). destruct (zip_strict a b) as [l bad]. simpl in *.
  intros Hbad. destruct (IH Hbad) as [-> ->]. done.
Qed.

Lemma generate_payloads_lengths (self : UniswapLpCycle)
    (from_address : string) (swap_amount : Z)
    (pool_swap_amounts : list SwapAmount) (payloads : list Payload) :
  generate_payloads to_checksum_address self from_address swap_amount
    pool_swap_amounts = Ok payloads →
  length pool_swap_amounts = length (swap_pools self).
Proof.
  unfold generate_payloads.
  destruct (to_checksum_address from_address) as [caller|]; [|done]. simpl.
  destruct (zip_strict (swap_pools self) pool_swap_amounts) as [pairs bad]
    eqn:Hzip.
  intros H. apply generate_payloads_loop_hops in H as (-> & _).
  pose proof (zip_strict_length (swap_pools self) pool_swap_amounts) as Hl.
  rewrite Hzip in Hl. by destruct (Hl eq_refl) as [-> _].
Qed.

(** The payload of a hop other than a constant-product first hop. *)
Lemma payload_of_hop_swap (self : UniswapLpCycle) (caller : string)
    (swap_amount : Z) (i : nat) (pool : Pool) (amount : SwapAmount)
    (payload : Payload) :
  payload_of_hop self caller swap_amount i pool amount = Ok payload →
  (1 ≤ i)%nat ∨ isinstance_V2 (pool_class pool) = false →
  payload = swap_payload (swap_pools self) caller i pool amount ∧
  swap_amount_fits pool amount.
Proof.
  unfold payload_of_hop, swap_payload. intros H Hhop.
  assert (Hdest : swap_destination (swap_pools self) i caller
                  = match swap_pools self !! S i with
                    | Some next_pool =>
                        match pool_class next_pool with
                        | AerodromeV2Pool | UniswapV2Pool => address next_pool
                        | AerodromeV3Pool | UniswapV3Pool => caller
                        end
                    | None => caller
                    end).
  { unfold swap_destination.
    destruct (swap_pools self !! S i) as [next_pool|] eqn:Hnext.
    - apply lookup_lt_Some in Hnext.
      destruct (Z.ltb_spec (Z.of_nat i) (Z.of_nat (length (swap_pools self)) - 1));
        [|lia]. by destruct (pool_class next_pool).
    - by destruct (_ <? _). }
  rewrite Hdest in H. clear Hdest.
  assert (Hguard : (i =? 0)%nat && isinstance_V2 (pool_class pool) = false).
  { destruct Hhop as [Hi| ->]; [|by rewrite andb_false_r].
    destruct i; [lia|done]. }
  rewrite Hguard in H. destruct amount as [a ins [out0 out1]|a spec zfo limit].
  - destruct (isinstance_V2 _) eqn:Hclass; [|done]. by injection H as <-.
  - destruct (isinstance_UniswapV3Pool _) eqn:Hclass; [|done].
    by injection H as <-.
Qed.

(** X14: when [generate_payloads] returns, every hop other than a
    constant-product first hop has its swap among the payloads: a call at
    the pool of the hop, with the amounts of the hop's record, that pays out
    to the next pool when that is a constant-product pool and to the
    checksummed caller otherwise, with a value of zero; the record is of the
    kind the pool calls for.  When the first pool is a
    concentrated-liquidity pool, the payloads are these swaps, one per pool
    in the order of the pools. *)
Theorem generate_payloads_by_hop (self : UniswapLpCycle) (from_address : string)
    (swap_amount : Z) (pool_swap_amounts : list SwapAmount)
    (payloads : list Payload) :
  generate_payloads to_checksum_address self from_address swap_amount
    pool_swap_amounts = Ok payloads →
  ∃ caller,
    to_checksum_address from_address = Ok caller ∧
    (∀ i pool amount,
       swap_pools self !! i = Some pool →
       pool_swap_amounts !! i = Some amount →
       (1 ≤ i)%nat ∨ isinstance_V2 (pool_class pool) = false →
       swap_payload (swap_pools self) caller i pool amount ∈ payloads ∧
       swap_amount_fits pool amount) ∧
    ((∀ first, swap_pools self !! 0%nat = Some first →
               isinstance_V2 (pool_class first) = false) →
     length payloads = length (swap_pools self) ∧
     ∀ i pool amount,
       swap_pools self !! i = Some pool →
       pool_swap_amounts !! i = Some amount →
       payloads !! i
       = Some (swap_payload (swap_pools self) caller i pool amount)).
Proof.
  unfold generate_payloads.
  destruct (to_checksum_address from_address) as [caller|]; [|done]. simpl.
  destruct (zip_strict (swap_pools self) pool_swap_amounts) as [pairs bad]
    eqn:Hzip.
  intros H. apply generate_payloads_loop_hops in H
    as (-> & new & -> & Hlen & Hnew).
  pose proof (zip_strict_length (swap_pools self) pool_swap_amounts) as Hl.
  pose proof (zip_strict_lookup (swap_pools self) pool_swap_amounts) as Hlk.
  rewrite Hzip in Hl, Hlk. simpl in Hl, Hlk. destruct (Hl eq_refl) as [Hl1 Hl2].
  simpl.
  assert (Hhop : ∀ i pool amount,
    swap_pools self !! i = Some pool → pool_swap_amounts !! i = Some amount →
    (1 ≤ i)%nat ∨ isinstance_V2 (pool_class pool) = false →
    new !! i = Some (swap_payload (swap_pools self) caller i pool amount) ∧
    swap_amount_fits pool amount).
  { intros i pool amount Hpool Hamount Hkind.
    destruct (lookup_lt_is_Some_2 new i) as [payload Hpayload].
    { rewrite Hlen, Hl2. by eapply lookup_lt_Some. }
    pose proof (Hnew i pool amount payload (Hlk i pool amount eq_refl Hpool
                                              Hamount) Hpayload) as Hp.
    simpl in Hp. apply payload_of_hop_swap in Hp as [-> Hfits]; done. }
  exists caller. split; [done|]. split.
  - intros i pool amount Hpool Hamount Hkind.
    destruct (Hhop i pool amount Hpool Hamount Hkind) as [Hi Hfits].
    split; [|done]. by eapply list_elem_of_lookup_2.
  - intros Hfirst. split; [by rewrite Hlen|].
    intros i pool amount Hpool Hamount.
    apply (Hhop i pool amount Hpool Hamount).
    destruct i; [right; by apply Hfirst|left; lia].
Qed.

(** X15: when the swap amounts are not as many as the pools,
    [generate_payloads] returns no payloads: it raises, at the latest with
    the [ValueError] of the strict [zip]. *)
Theorem generate_payloads_length_mismatch (self : UniswapLpCycle)
    (from_address : string) (swap_amount : Z)
    (pool_swap_amounts : list SwapAmount) :
  length pool_swap_amounts ≠ length (swap_pools self) →
  ∃ e, generate_payloads to_checksum_address self from_address swap_amount
         pool_swap_amounts = Raise e.
Proof.
  intros Hlen.
  destruct (generate_payloads _ _ _ _ _) as [payloads|e] eqn:H; [|by eexists].
  by apply generate_payloads_lengths in H.
Qed.

End PayloadsByHop.

(** A cycle the constructor builds, in the module as it stands, from a
    concentrated-liquidity pool with a sparse liquidity map and a
    constant-product pool. *)
Example sparse_first_cycle_constructed :
  __init__ unbound_get_sqrt_ratio_at_tick Examples.WETH
    (Collection [Examples.lp3_sparse; Examples.lp2]) "cycle" (Some 500)
  = Ok Examples.sparse_first_cycle.
Proof. vm_compute. reflexivity. Qed.

Lemma generate_payloads_by_hop_witness :
  ∃ caller,
    (λ a : string, Ok a) "0xF00D" = Ok caller ∧
    (∀ i pool amount,
       swap_pools Examples.sparse_first_cycle !! i = Some pool →
       [UniswapV3PoolSwapAmounts "0xBBB4" 100 true 4295128740;
        UniswapV2PoolSwapAmounts "0xAAA2" (0, 90) (90, 0)] !! i = Some amount →
       (1 ≤ i)%nat ∨ isinstance_V2 (pool_class pool) = false →
       swap_payload (swap_pools Examples.sparse_first_cycle) caller i pool
         amount
       ∈ [("0xBBB4", call_swap_v3 "0xAAA2" true 100 4295128740 "", 0);
          ("0xAAA2", call_swap_v2 90 0 "0xF00D" "", 0)] ∧
       swap_amount_fits pool amount) ∧
    ((∀ first, swap_pools Examples.sparse_first_cycle !! 0%nat = Some first →
               isinstance_V2 (pool_class first) = false) →
     length [("0xBBB4", call_swap_v3 "0xAAA2" true 100 4295128740 "", 0);
             ("0xAAA2", call_swap_v2 90 0 "0xF00D" "", 0)]
     = length (swap_pools Examples.sparse_first_cycle) ∧
     ∀ i pool amount,
       swap_pools Examples.sparse_first_cycle !! i = Some pool →
       [UniswapV3PoolSwapAmounts "0xBBB4" 100 true 4295128740;
        UniswapV2PoolSwapAmounts "0xAAA2" (0, 90) (90, 0)] !! i = Some amount →
       [("0xBBB4", call_swap_v3 "0xAAA2" true 100 4295128740 "", 0);
        ("0xAAA2", call_swap_v2 90 0 "0xF00D" "", 0)] !! i
       = Some (swap_payload (swap_pools Examples.sparse_first_cycle) caller i
                 pool amount)).
Proof.
  apply (generate_payloads_by_hop (λ a, Ok a) Examples.sparse_first_cycle
           "0xF00D" 100
           [UniswapV3PoolSwapAmounts "0xBBB4" 100 true 4295128740;
            UniswapV2PoolSwapAmounts "0xAAA2" (0, 90) (90, 0)]).
  vm_compute. reflexivity.
Defined.

Lemma generate_payloads_length_mismatch_witness :
  ∃ e, generate_payloads (λ a, Ok a) Examples.two_hop_cycle "0xF00D" 100
         [UniswapV2PoolSwapAmounts "0xAAA1" (100, 0) (0, 90)] = Raise e.
Proof.
  apply (generate_payloads_length_mismatch (λ a, Ok a) Examples.two_hop_cycle
           "0xF00D" 100 [UniswapV2PoolSwapAmounts "0xAAA1" (100, 0) (0, 90)]).
  simpl. lia.
Defined.

(** ** Paths of any number of hops *)

Section DecodePaths.

Import V3Functions.

Variable to_checksum_address : list Byte.byte -> result string.

#[local] Abbreviation hop_bytes :=
  (λ '(f, a), f ++ a : list Byte.byte).
#[local] Abbreviation hop_items checksum :=
  (λ '(f, a), [PathFee (big_endian f); PathAddress (checksum a)]).

Lemma decode_loop_hops (checksum : list Byte.byte → string)
    (rest : list (list Byte.byte * list Byte.byte)) :
  (∀ chunk, length chunk = 20%nat →
            to_checksum_address chunk = Ok (checksum chunk)) →
  Forall (λ '(f, a), length f = 3%nat ∧ length a = 20%nat) rest →
  rest ≠ [] →
  ∀ (prefix : list Byte.byte) (decoded : list PathItem) (fuel : nat),
    (2 * length rest ≤ fuel)%nat →
    decode_loop to_checksum_address fuel
      (prefix ++ concat (hop_bytes <$> rest)) (length prefix) false decoded
    = Some (Ok (decoded ++ concat (hop_items checksum <$> rest))).
Proof.
  intros Hchecksum. induction rest as [|[f a] rest IH]; [done|].
  intros Hall _ prefix decoded fuel Hfuel.
  apply Forall_cons in Hall as [[Hf Ha] Hall].
  destruct fuel as [|[|fuel]]; [simpl in Hfuel; lia..|].
  rewrite fmap_cons, concat_cons. cbn [decode_loop negb].
  unfold slice. rewrite drop_app_length.
  rewrite <- (app_assoc f a), take_app_length' by done.
  rewrite !length_app, Hf, Ha.
  replace (length prefix + 3 =? length prefix + (3 + (20 + _)))%nat
    with false by (symmetry; apply Nat.eqb_neq; lia).
  replace (prefix ++ f ++ a ++ concat (hop_bytes <$> rest))
    with ((prefix ++ f) ++ a ++ concat (hop_bytes <$> rest))
    by by rewrite <- app_assoc.
  replace (length prefix + 3)%nat with (length (prefix ++ f))
    by (rewrite length_app; lia).
  rewrite drop_app_length, take_app_length' by done.
  rewrite (Hchecksum a Ha). cbn [mbind result_bind].
  rewrite ?length_app, ?Hf, ?Ha.
  destruct rest as [|hop rest].
  - replace (length prefix + 3 + 20 =? _)%nat with true
      by (symmetry; apply Nat.eqb_eq; simpl; lia).
    simpl. by rewrite int_from_bytes_big_endian, <- app_assoc.
  - replace (length prefix + 3 + 20 =? _)%nat with false.
    2:{ symmetry. apply Nat.eqb_neq. destruct hop as [f' a'].
        apply Forall_cons in Hall as [[Hf' Ha'] _].
        rewrite fmap_cons, concat_cons, !length_app, Hf', Ha'. lia. }
    replace ((prefix ++ f) ++ a ++ concat (hop_bytes <$> hop :: rest))
      with ((prefix ++ f ++ a) ++ concat (hop_bytes <$> hop :: rest))
      by by rewrite <- !app_assoc.
    replace (length prefix + 3 + 20)%nat with (length (prefix ++ f ++ a))
      by (rewrite !length_app; lia).
    rewrite IH; [|done|done|simpl in *; lia].
    rewrite int_from_bytes_big_endian.
    by rewrite (fmap_cons _ (f, a)), concat_cons, <- !app_assoc.
Qed.

(** X16: a packed path of any number of hops, a first address of 20 bytes
    followed by a fee of 3 bytes and an address of 20 bytes for every hop,
    decodes into the checksummed addresses and the big-endian fees in the
    order they were packed; the loop ends after one chunk per item. *)
Theorem decode_v3_path_packed (checksum : list Byte.byte → string)
    (first : list Byte.byte) (rest : list (list Byte.byte * list Byte.byte))
    (fuel : nat) :
  (∀ chunk, length chunk = 20%nat →
            to_checksum_address chunk = Ok (checksum chunk)) →
  length first = 20%nat →
  Forall (λ '(f, a), length f = 3%nat ∧ length a = 20%nat) rest →
  (2 * length rest + 1 ≤ fuel)%nat →
  decode_v3_path to_checksum_address fuel (pack_path first rest)
  = Some (Ok (path_items checksum first rest)).
Proof.
  intros Hchecksum Hfirst Hrest Hfuel.
  unfold decode_v3_path, pack_path, path_items.
  destruct fuel as [|fuel]; [lia|]. cbn [decode_loop negb]. unfold slice.
  rewrite drop_0, take_app_length' by done.
  rewrite (Hchecksum first Hfirst). cbn [mbind result_bind].
  destruct rest as [|hop rest].
  - simpl. by rewrite app_nil_r, Hfirst.
  - replace (0 + 20 =? _)%nat with false.
    2:{ symmetry. apply Nat.eqb_neq. destruct hop as [f a].
        apply Forall_cons in Hrest as [[Hf Ha] _].
        rewrite fmap_cons, concat_cons, !length_app, Hfirst, Hf, Ha. lia. }
    replace (0 + 20)%nat with (length first) by by rewrite Hfirst.
    rewrite (decode_loop_hops checksum); [done..|simpl in *; lia].
Qed.

(** The position of the loop stays on the grid of the packing: a multiple of
    23 before an address, 20 more than one before a fee. *)
Lemma decode_loop_returns (fuel : nat) (path : list Byte.byte) (pos : nat)
    (address_next : bool) (decoded items : list PathItem) :
  decode_loop to_checksum_address fuel path pos address_next decoded
  = Some (Ok items) →
  (pos mod 23 = if address_next then 0 else 20)%nat →
  ((length path mod 23 = 20)%nat ∨
   (length path mod 23 = 0 ∧ 0 < length path)%nat) ∧
  (length decoded < length items)%nat.
Proof.
  assert (Hstep : ∀ pos' (b : bool),
            (pos' mod 23 = if b then 0 else 20)%nat →
            ((pos' + if b then 20 else 3) mod 23 = if b then 20 else 0)%nat).
  { intros pos' b Hb. rewrite Nat.Div0.add_mod, Hb. by destruct b. }
  revert pos address_next decoded.
  induction fuel as [|fuel IH]; intros pos address_next decoded; [done|].
  cbn [decode_loop].
  destruct (if address_next then _ else _) as [item|]; [|done].
  destruct (Nat.eqb_spec (pos + if address_next then 20 else 3)%nat
              (length path)) as [Heq|Hne].
  - intros [= <-] Hpos. split; [|rewrite length_app; simpl; lia].
    pose proof (Hstep pos address_next Hpos) as Hs. rewrite <- Heq.
    destruct address_next; [by left|right; split; [done|lia]].
  - intros Hloop Hpos. apply IH in Hloop as [Hlen Hitems].
    + split; [done|]. rewrite length_app in Hitems. simpl in Hitems. lia.
    + destruct address_next; simpl;
        [apply (Hstep pos true Hpos)|apply (Hstep pos false Hpos)].
Qed.

(** X17: [decode_v3_path] returns a list only for a path whose length is 20
    more than a multiple of 23, or a positive multiple of 23, and the list
    is then not empty; on any other path, the empty one included, the loop
    never returns (it raises or goes on reading past the end). *)
Theorem decode_v3_path_returns_only_on_grid (fuel : nat)
    (path : list Byte.byte) (items : list PathItem) :
  decode_v3_path to_checksum_address fuel path = Some (Ok items) →
  ((length path mod 23 = 20)%nat ∨
   (length path mod 23 = 0 ∧ 0 < length path)%nat) ∧
  items ≠ [].
Proof.
  unfold decode_v3_path. intros H.
  apply decode_loop_returns in H as [Hlen Hitems]; [|done].
  split; [done|]. intros ->. simpl in Hitems. lia.
Qed.

End DecodePaths.

Lemma decode_v3_path_packed_witness :
  V3Functions.decode_v3_path
    (λ chunk, Ok (String.string_of_list_byte chunk)) 5
    (pack_path (replicate 20 Byte.x41)
       [([Byte.x00; Byte.x0b; Byte.xb8], replicate 20 Byte.x42);
        ([Byte.x00; Byte.x01; Byte.xf4], replicate 20 Byte.x43)])
  = Some (Ok (path_items String.string_of_list_byte (replicate 20 Byte.x41)
       [([Byte.x00; Byte.x0b; Byte.xb8], replicate 20 Byte.x42);
        ([Byte.x00; Byte.x01; Byte.xf4], replicate 20 Byte.x43)])).
Proof.
  apply (decode_v3_path_packed
           (λ chunk, Ok (String.string_of_list_byte chunk))
           String.string_of_list_byte).
  - reflexivity.
  - reflexivity.
  - repeat constructor.
  - simpl. lia.
Defined.

(** A path that ends on a fee is on the grid as well: 23 bytes decode into
    an address and a fee. *)
Lemma decode_v3_path_returns_only_on_grid_witness :
  ((length (replicate 20 Byte.x41 ++ [Byte.x00; Byte.x0b; Byte.xb8]) mod 23
    = 20)%nat ∨
   (length (replicate 20 Byte.x41 ++ [Byte.x00; Byte.x0b; Byte.xb8]) mod 23
    = 0 ∧
    0 < length (replicate 20 Byte.x41 ++ [Byte.x00; Byte.x0b; Byte.xb8]))%nat)
  ∧ [V3Functions.PathAddress "AAAAAAAAAAAAAAAAAAAA"; V3Functions.PathFee 3000]
    ≠ [].
Proof.
  apply (decode_v3_path_returns_only_on_grid
           (λ chunk, Ok (String.string_of_list_byte chunk)) 2).
  vm_compute. reflexivity.
Defined.

(** ** Tokens the Balancer pool does not hold *)

Section BalancerTokens.

Import Balancer.

Variable mulUp : Q -> Q -> result Q.
Variable _subtractSwapFeeAmount : Q -> Q -> result Q.
Variable _upscaleArray : list Q -> list Z -> result (list Q).
Variable _upscale : Q -> Z -> result Q.
Variable _calcOutGivenIn : Z -> Z -> Z -> Z -> Z -> result Q.
Variable _downscaleDown : Q -> Z -> result Q.

Lemma tokens_index_found (l : list Erc20Token) (token : Erc20Token) :
  token ∈ l → ∃ i, tokens_index l token = Ok i ∧ l !! i = Some token.
Proof.
  induction l as [|t l IH]; [by intros ?%elem_of_nil|].
  intros Hin. simpl. case_bool_decide as Ht.
  - exists 0%nat. by subst t.
  - apply elem_of_cons in Hin as [->|Hin]; [done|].
    destruct (IH Hin) as (i & -> & Hi). by exists (S i).
Qed.

Lemma tokens_index_missing (l : list Erc20Token) (token : Erc20Token) :
  token ∉ l →
  tokens_index l token = Raise (ValueError "tuple.index(x): x not in tuple").
Proof.
  induction l as [|t l IH]; [done|].
  intros Hin. apply not_elem_of_cons in Hin as [Hne Hin]. simpl.
  case_bool_decide; [by subst t|]. by rewrite (IH Hin).
Qed.

(** X18: asked about a token the pool does not hold, on either side of the
    trade, [calculate_tokens_out_from_tokens_in] raises the [ValueError] of
    [tuple.index], whatever the quantity, the balances and the fixed-point
    library do. *)
Theorem calculate_tokens_out_unknown_token (self : BalancerV2Pool)
    (token_in : Erc20Token) (token_in_quantity : Z) (token_out : Erc20Token)
    (override_state : option BalancerV2PoolState) :
  token_in ∉ tokens self ∨ token_out ∉ tokens self →
  calculate_tokens_out_from_tokens_in mulUp _subtractSwapFeeAmount
    _upscaleArray _upscale _calcOutGivenIn _downscaleDown self token_in
    token_in_quantity token_out override_state
  = Raise (ValueError "tuple.index(x): x not in tuple").
Proof.
  intros Hmissing. unfold calculate_tokens_out_from_tokens_in.
  destruct (decide (token_in ∈ tokens self)) as [Hin|Hin].
  - destruct Hmissing as [?|Hout]; [done|].
    destruct (tokens_index_found _ _ Hin) as (i & -> & _).
    by rewrite (tokens_index_missing _ _ Hout).
  - by rewrite (tokens_index_missing _ _ Hin).
Qed.

End BalancerTokens.

Lemma calculate_tokens_out_unknown_token_witness :
  Balancer.calculate_tokens_out_from_tokens_in
    (λ a b, Ok (Examples.fee_of a b))
    (λ a b, Ok (Qred (a - Examples.fee_of a b)))
    (λ balances _, Ok balances) (λ a _, Ok a)
    (λ balance_in _ balance_out _ amount_in,
       Ok (inject_Z (balance_out * amount_in / (balance_in + amount_in))))
    (λ a _, Ok a) (Examples.weighted_pool [1000; 1000]) Examples.WETH 100
    {| token_address := "0xA0b8" |} None
  = Raise (ValueError "tuple.index(x): x not in tuple").
Proof.
  apply (calculate_tokens_out_unknown_token _ _ _ _ _ _
           (Examples.weighted_pool [1000; 1000]) Examples.WETH 100
           {| token_address := "0xA0b8" |} None).
  right. simpl. rewrite !elem_of_cons, elem_of_nil.
  intros [H|[H|[]]]; discriminate H.
Defined.
